(** * One-dimensional Gaussian GAN demo: the numeric model of the notebooks

    The two notebooks [OneDimGaussianGAN.ipynb] and [NonSaturatingGAN.ipynb]
    define a Gaussian density, the optimal discriminator and a value
    function, and plot them over the grid [torch.arange(-3, 6, 0.1)].

    The tensor arithmetic of the notebooks is read over the real numbers:
    [torch.exp], [torch.log], [torch.sqrt] and [torch.pi] are [exp], [ln],
    [sqrt] and [PI]; an elementwise operation on a tensor is a [map] over
    the list of its entries.  Rounding, overflow and underflow of machine
    floats are outside this model: where the program's floats saturate (a
    density that underflows to zero, a discriminator that rounds to one)
    the statements about the program are kept non-strict. *)

From Stdlib Require Import Reals Lra Lia List ZArith String Psatz.
Import ListNotations.
Local Open Scope R_scope.

(** ** OneDimGaussianGAN.ipynb *)

Module OneDimGaussianGAN.

(** [torch.exp(-(x - mean) ** 2 / variance) / torch.sqrt(2 * torch.pi * variance)];
    in Python [**] binds tighter than the unary minus. *)
Definition gaussian_model (x mean variance : R) : R :=
  exp (- (x - mean) ^ 2 / variance) / sqrt (2 * PI * variance).

(** [lambda x: gaussian_model(x, torch.tensor(mean), torch.tensor(variance))] *)
Definition make_gaussian_model (mean variance : R) : R -> R :=
  fun x => gaussian_model x mean variance.

Definition discriminator (x : R) (p_true p_gen : R -> R) : R :=
  p_true x / (p_true x + p_gen x).

(** [loghalf = math.log(0.5)] *)
Definition loghalf : R := ln (1 / 2).

(** [t.clamp(lo)]: the lower clamp of a tensor entry. *)
Definition clamp (t lo : R) : R := Rmax t lo.

(** The clamp floor [1e-50] of [value_fn]. *)
Definition clamp_floor : R := / 10 ^ 50.

(** The second (effective) definition of [value_fn], with the keyword
    argument [rule]; the notebook calls it with ['v'] (the default) and
    ['js']. *)
Definition value_fn (x : R) (p_true p_gen : R -> R) (rule : string) : R :=
  let d := discriminator x p_true p_gen in
  let constant := if String.eqb rule "js" then loghalf else 0 in
  p_true x * (ln d - constant)
  + p_gen x * (ln (clamp (1 - d) clamp_floor) - constant).

(** [torch.arange(-3, 6, 0.1, dtype=torch.double)]: the 90 points
    [-3 + i * 0.1], [i = 0 .. 89]. *)
Definition x_range : list R :=
  map (fun i : nat => -3 + INR i * (1 / 10)) (seq 0 90).

(** The series [js_redraw_rule] hands to the plotting calls. *)
Record curves : Type := Curves {
  value_curve : list R;   (* ax2.fill_between(x_range, value_fn(...)) *)
  gen_density : list R;   (* ax.plot(x_range, gen_model(x_range)) *)
  true_density : list R;  (* ax.plot(x_range, true_model(x_range)) *)
  discriminator_curve : list R (* ax.plot(x_range, discriminator(...)) *)
}.

Definition js_redraw_rule
    (gen_mean gen_variance true_mean true_variance : R) (rule : string)
    : curves :=
  let true_model := make_gaussian_model true_mean true_variance in
  let gen_model := make_gaussian_model gen_mean gen_variance in
  {| value_curve :=
       map (fun x => value_fn x true_model gen_model rule) x_range;
     gen_density := map gen_model x_range;
     true_density := map true_model x_range;
     discriminator_curve :=
       map (fun x => discriminator x true_model gen_model) x_range |}.

End OneDimGaussianGAN.

(** ** NonSaturatingGAN.ipynb *)

Module NonSaturatingGAN.

Definition gaussian_model (x mean variance : R) : R :=
  exp (- (x - mean) ^ 2 / variance) / sqrt (2 * PI * variance).

Definition make_gaussian_model (mean variance : R) : R -> R :=
  fun x => gaussian_model x mean variance.

Definition discriminator (x : R) (p_true p_gen : R -> R) : R :=
  p_true x / (p_true x + p_gen x).

Definition value_fn (x : R) (p_true p_gen : R -> R) : R :=
  let d := discriminator x p_true p_gen in
  p_gen x * ln d.

End NonSaturatingGAN.

(** ** The grid integral *)

(** Modelled from the spec: the notebooks only fill the area under the value
    curve and never compute its integral; the "sample-grid trapezoidal sum"
    of the testable properties is missing from the source.  [trapz ys xs]
    adds, over consecutive grid points, the step times the mean of the two
    ordinates. *)
Fixpoint trapz (ys xs : list R) : R :=
  match ys, xs with
  | y0 :: ys', x0 :: xs' =>
      match ys', xs' with
      | y1 :: _, x1 :: _ => (x1 - x0) * ((y0 + y1) / 2) + trapz ys' xs'
      | _, _ => 0
      end
  | _, _ => 0
  end.

(** ** Fixed-point enclosures of the exponential

    The numeric claims compare grid sums of [exp] with constants.  The sums
    are enclosed with integer arithmetic: a real [r] is bounded by [z / S]
    for an integer [z] and a fixed scale [S], and [exp t] is reached from
    [1 + t / 2^k <= exp (t / 2^k)] by [k] squarings, each rounded down. *)

Module Fx.

(** The square of a scaled value, rounded down. *)
Definition sq (S z : Z) : Z := (z * z / S)%Z.

Fixpoint sq_iter (k : nat) (S z : Z) : Z :=
  match k with
  | O => z
  | Datatypes.S k' => sq_iter k' S (sq S z)
  end.

(** A scaled lower bound of [exp (a / b)]. *)
Definition exp_lo_pos (S : Z) (k : nat) (a b : Z) : Z :=
  sq_iter k S (S + S * a / (b * 2 ^ Z.of_nat k))%Z.

(** A scaled lower bound of [exp (- a / b)]. *)
Definition exp_lo_neg (S : Z) (k : nat) (a b : Z) : Z :=
  let z0 := (S - (S * a / (b * 2 ^ Z.of_nat k) + 1))%Z in
  if (z0 <? 0)%Z then 0%Z else sq_iter k S z0.

(** A scaled upper bound of [exp (- a / b)]. *)
Definition exp_hi_neg (S : Z) (k : nat) (a b : Z) : Z :=
  let z := exp_lo_pos S k a b in
  if (0 <? z)%Z then (S * S / z + 1)%Z else S.

(** The sum of [y_i + y_(i+1)] over consecutive entries. *)
Fixpoint pair_sum (zs : list Z) : Z :=
  match zs with
  | z0 :: zs' =>
      match zs' with
      | z1 :: _ => (z0 + z1 + pair_sum zs')%Z
      | [] => 0%Z
      end
  | [] => 0%Z
  end.

(** Scale and number of squarings used for the grid sums. *)
Definition scale : Z := (10 ^ 40)%Z.
Definition halvings : nat := 24.

(** The exponents of the two densities of the demo on the grid:
    [(x_i - 0)^2 / 1 = (i - 30)^2 / 100] and
    [(x_i - 3)^2 / 0.5 = 2 (i - 60)^2 / 100]. *)
Definition gen_num (i : nat) : Z := ((Z.of_nat i - 30) ^ 2)%Z.
Definition true_num (i : nat) : Z := (2 * (Z.of_nat i - 60) ^ 2)%Z.

Definition grid_hi (num : nat -> Z) : Z :=
  pair_sum (map (fun i => exp_hi_neg scale halvings (num i) 100) (seq 0 90)).
Definition grid_lo (num : nat -> Z) : Z :=
  pair_sum (map (fun i => exp_lo_neg scale halvings (num i) 100) (seq 0 90)).

End Fx.

(** The real counterpart of [Fx.pair_sum]. *)
Fixpoint pair_sum (ys : list R) : R :=
  match ys with
  | y0 :: ys' =>
      match ys' with
      | y1 :: _ => y0 + y1 + pair_sum ys'
      | [] => 0
      end
  | [] => 0
  end.

(** The exponentials of the two densities of the demo, generator
    [(mean, variance) = (0, 1)] and target [(3, 0.5)]. *)
Definition gen_exp (x : R) : R := exp (- (x - 0) ^ 2 / 1).
Definition true_exp (x : R) : R := exp (- (x - 3) ^ 2 / (1 / 2)).

(** A narrow density on the demo grid: [(mean, variance) = (0, 0.0016)].
    Its exponent at the [i]-th grid point is [625 (i - 30)^2 / 100];
    [narrow_cap] cuts the exponent off at 25. *)
Definition narrow_exp (x : R) : R := exp (- (x - 0) ^ 2 / (16 / 10000)).
Definition narrow_cap (x : R) : R :=
  exp (- Rmin ((x - 0) ^ 2 / (16 / 10000)) 25).
Definition narrow_num (i : nat) : Z := (625 * (Z.of_nat i - 30) ^ 2)%Z.
Definition narrow_num_cap (i : nat) : Z := Z.min (narrow_num i) 2500.

(** ** Further parts of the notebooks *)

(** The first definition of [value_fn] in the cell of
    OneDimGaussianGAN.ipynb, without the clamp and without [rule]; the
    second definition in the same cell replaces it. *)
Definition value_fn_first (x : R) (p_true p_gen : R -> R) : R :=
  let d := OneDimGaussianGAN.discriminator x p_true p_gen in
  p_true x * ln d + p_gen x * ln (1 - d).

(** [ax.set_ylim(-0.05, 1.05)] and [ax2.set_ylim(-3.05, 3.05)] of
    [js_redraw_rule]: the limits of the left and of the right axis. *)
Definition ax_ylim : R * R := (- (5 / 100), 105 / 100).
Definition ax2_ylim : R * R := (- (305 / 100), 305 / 100).

(** Whether a plotted value lies strictly inside the limits of an axis. *)
Definition inside (ylim : R * R) (y : R) : Prop := fst ylim < y < snd ylim.

Module NonSaturatingRedraw.

(** The series [nonsaturating_redraw_rule] hands to the plotting calls. *)
Record curves : Type := Curves {
  value_curve : list R;   (* ax2.fill_between(x_range, value_fn(...)) *)
  gen_density : list R;   (* ax.plot(x_range, gen_model(x_range)) *)
  true_density : list R;  (* ax.plot(x_range, true_model(x_range)) *)
  discriminator_curve : list R (* ax.plot(x_range, discriminator(...)) *)
}.

(** [x_range = torch.arange(-3, 6, 0.1)] is local to the function. *)
Definition nonsaturating_redraw_rule
    (gen_mean gen_variance true_mean true_variance : R) : curves :=
  let x_range := map (fun i : nat => -3 + INR i * (1 / 10)) (seq 0 90) in
  let true_model :=
    NonSaturatingGAN.make_gaussian_model true_mean true_variance in
  let gen_model :=
    NonSaturatingGAN.make_gaussian_model gen_mean gen_variance in
  {| value_curve :=
       map (fun x => NonSaturatingGAN.value_fn x true_model gen_model) x_range;
     gen_density := map gen_model x_range;
     true_density := map true_model x_range;
     discriminator_curve :=
       map (fun x => NonSaturatingGAN.discriminator x true_model gen_model)
           x_range |}.

End NonSaturatingRedraw.

(** * Properties *)

Import OneDimGaussianGAN.

Section Density.

Variables (mean variance : R).
Hypothesis variance_pos : 0 < variance.

Lemma norm_const_pos : 0 < sqrt (2 * PI * variance).
Proof.
  apply sqrt_lt_R0.
  pose proof PI_RGT_0. nra.
Qed.

Lemma gaussian_model_pos (x : R) : 0 < gaussian_model x mean variance.
Proof.
  unfold gaussian_model.
  apply Rdiv_lt_0_compat; [apply exp_pos | apply norm_const_pos].
Qed.

End Density.

(** ** The discriminator *)

Lemma ratio_in_unit (a b : R) : 0 < a -> 0 < b -> 0 < a / (a + b) < 1.
Proof.
  intros Ha Hb. split.
  - apply Rdiv_lt_0_compat; lra.
  - apply Rmult_lt_reg_r with (a + b); [lra|].
    unfold Rdiv. rewrite Rmult_assoc, Rinv_l; lra.
Qed.

Lemma ratio_same (a : R) : 0 < a -> a / (a + a) = 1 / 2.
Proof. intros Ha. field. lra. Qed.

Lemma discriminator_in_unit (x tm tv gm gv : R) :
  0 < tv -> 0 < gv ->
  0 < discriminator x (make_gaussian_model tm tv) (make_gaussian_model gm gv) < 1.
Proof.
  intros Ht Hg. unfold discriminator, make_gaussian_model.
  apply ratio_in_unit; now apply gaussian_model_pos.
Qed.

Lemma discriminator_same (x : R) (p : R -> R) :
  0 < p x -> discriminator x p p = 1 / 2.
Proof. apply ratio_same. Qed.

(** C7: with equal parameters for the true and the generated distribution
    the discriminator is one half at every point. *)
Theorem discriminator_equal_params (x mean variance : R) :
  0 < variance ->
  discriminator x (make_gaussian_model mean variance)
                  (make_gaussian_model mean variance) = 1 / 2
  /\ NonSaturatingGAN.discriminator x
       (NonSaturatingGAN.make_gaussian_model mean variance)
       (NonSaturatingGAN.make_gaussian_model mean variance) = 1 / 2.
Proof.
  intros Hv.
  pose proof (gaussian_model_pos mean variance Hv x) as Hp.
  split; [now apply discriminator_same | now apply ratio_same].
Qed.

Lemma discriminator_equal_params_witness :
  0 < 1 /\
  discriminator 0 (make_gaussian_model 0 1) (make_gaussian_model 0 1) = 1 / 2.
Proof.
  split; [lra | apply (discriminator_equal_params 0 0 1); lra].
Defined.

(** ** The value function *)

Lemma clamp_floor_pos : 0 < clamp_floor.
Proof. unfold clamp_floor. apply Rinv_0_lt_compat. apply pow_lt. lra. Qed.

Lemma value_fn_v (x : R) (p_true p_gen : R -> R) :
  value_fn x p_true p_gen "v"
  = p_true x * ln (discriminator x p_true p_gen)
    + p_gen x * ln (Rmax (1 - discriminator x p_true p_gen) (/ 10 ^ 50)).
Proof.
  unfold value_fn, clamp, clamp_floor. cbn [String.eqb Ascii.eqb Bool.eqb].
  ring.
Qed.

Lemma value_fn_js (x : R) (p_true p_gen : R -> R) :
  value_fn x p_true p_gen "js"
  = value_fn x p_true p_gen "v" - (p_true x + p_gen x) * ln (1 / 2).
Proof.
  unfold value_fn, loghalf. cbn [String.eqb Ascii.eqb Bool.eqb]. ring.
Qed.

(** C8: the minimax curve is
    [P_true(x) * log(D(x)) + P_gen(x) * log(max(1 - D(x), 1e-50))]; the
    argument of the second logarithm is at least [1e-50], which is positive,
    and for positive variances the argument of the first one is positive
    too, so no logarithm is taken at zero. *)
Theorem value_fn_minimax_clamped (x tm tv gm gv : R) :
  0 < tv -> 0 < gv ->
  let p_true := make_gaussian_model tm tv in
  let p_gen := make_gaussian_model gm gv in
  let d := discriminator x p_true p_gen in
  value_fn x p_true p_gen "v"
    = p_true x * ln d + p_gen x * ln (Rmax (1 - d) (/ 10 ^ 50))
  /\ clamp (1 - d) clamp_floor = Rmax (1 - d) (/ 10 ^ 50)
  /\ / 10 ^ 50 <= clamp (1 - d) clamp_floor
  /\ 0 < clamp (1 - d) clamp_floor
  /\ 0 < d.
Proof.
  intros Ht Hg p_true p_gen d.
  split; [apply value_fn_v|]. split; [reflexivity|].
  pose proof clamp_floor_pos as Hc. unfold clamp, clamp_floor in *.
  pose proof (Rmax_r (1 - d) (/ 10 ^ 50)) as Hm.
  repeat split; try lra.
  apply (discriminator_in_unit x tm tv gm gv Ht Hg).
Qed.

Lemma value_fn_minimax_clamped_witness :
  0 < 1 / 2 /\ 0 < 1 /\
  / 10 ^ 50 <= clamp (1 - discriminator 3 (make_gaussian_model 3 (1 / 2))
                                          (make_gaussian_model 0 1))
                     clamp_floor.
Proof.
  split; [lra|]. split; [lra|].
  apply (value_fn_minimax_clamped 3 3 (1 / 2) 0 1); lra.
Defined.

(** C4: pointwise, the Jensen-Shannon curve is the minimax curve minus
    [(true_density(x) + gen_density(x)) * log(0.5)]; no condition on the
    parameters is needed. *)
Theorem value_fn_js_minimax_pointwise (x tm tv gm gv : R) :
  let p_true := make_gaussian_model tm tv in
  let p_gen := make_gaussian_model gm gv in
  value_fn x p_true p_gen "js"
  = value_fn x p_true p_gen "v" - (p_true x + p_gen x) * ln (1 / 2).
Proof. intros p_true p_gen. apply value_fn_js. Qed.

(** C9: the non-saturating curve is [gen_density(x) * log(D(x))]: two true
    densities with the same discriminator at [x] give the same value. *)
Theorem nonsaturating_value_fn (x : R) (p_true p_true' p_gen : R -> R) :
  NonSaturatingGAN.discriminator x p_true p_gen
    = NonSaturatingGAN.discriminator x p_true' p_gen ->
  NonSaturatingGAN.value_fn x p_true p_gen
    = p_gen x * ln (NonSaturatingGAN.discriminator x p_true p_gen)
  /\ NonSaturatingGAN.value_fn x p_true p_gen
    = NonSaturatingGAN.value_fn x p_true' p_gen.
Proof.
  intros Hd. split; [reflexivity|].
  unfold NonSaturatingGAN.value_fn. now rewrite Hd.
Qed.

Lemma nonsaturating_value_fn_witness :
  NonSaturatingGAN.discriminator 0
    (NonSaturatingGAN.make_gaussian_model 1 1)
    (NonSaturatingGAN.make_gaussian_model 0 1)
  = NonSaturatingGAN.discriminator 0
      (NonSaturatingGAN.make_gaussian_model (-1) 1)
      (NonSaturatingGAN.make_gaussian_model 0 1)
  /\ NonSaturatingGAN.value_fn 0
       (NonSaturatingGAN.make_gaussian_model 1 1)
       (NonSaturatingGAN.make_gaussian_model 0 1)
     = NonSaturatingGAN.value_fn 0
         (NonSaturatingGAN.make_gaussian_model (-1) 1)
         (NonSaturatingGAN.make_gaussian_model 0 1).
Proof.
  assert (H : NonSaturatingGAN.discriminator 0
                (NonSaturatingGAN.make_gaussian_model 1 1)
                (NonSaturatingGAN.make_gaussian_model 0 1)
              = NonSaturatingGAN.discriminator 0
                  (NonSaturatingGAN.make_gaussian_model (-1) 1)
                  (NonSaturatingGAN.make_gaussian_model 0 1)).
  { unfold NonSaturatingGAN.discriminator,
      NonSaturatingGAN.make_gaussian_model, NonSaturatingGAN.gaussian_model.
    replace (- (0 - -1) ^ 2 / 1) with (- (0 - 1) ^ 2 / 1) by lra.
    reflexivity. }
  split; [exact H|].
  apply (nonsaturating_value_fn 0 _ _ _ H).
Defined.

(** ** Soundness of the fixed-point enclosures *)

Section FxSound.

Variable S : Z.
Hypothesis S_pos : (0 < S)%Z.

Lemma IZR_div_le (a b : Z) : (0 < b)%Z -> IZR (a / b) * IZR b <= IZR a.
Proof.
  intros Hb. rewrite <- mult_IZR. apply IZR_le.
  pose proof (Z.mul_div_le a b Hb). lia.
Qed.

Lemma IZR_div_gt (a b : Z) : (0 < b)%Z -> IZR a < IZR (a / b + 1) * IZR b.
Proof.
  intros Hb. rewrite <- mult_IZR. apply IZR_lt.
  pose proof (Z.mul_succ_div_gt a b Hb). lia.
Qed.

Lemma sq_lo (z : Z) (r : R) :
  (0 <= z)%Z -> IZR z <= IZR S * r ->
  (0 <= Fx.sq S z)%Z /\ IZR (Fx.sq S z) <= IZR S * (r * r).
Proof.
  intros Hz Hr. unfold Fx.sq. split.
  - apply Z.div_pos; nia.
  - pose proof (IZR_div_le (z * z) S S_pos) as Hd.
    rewrite mult_IZR in Hd.
    assert (0 < IZR S) by now apply IZR_lt.
    assert (0 <= IZR z) by now apply IZR_le.
    apply Rmult_le_reg_r with (IZR S); [assumption|].
    eapply Rle_trans; [exact Hd|]. nra.
Qed.

Lemma sq_iter_lo (k : nat) : forall (z : Z) (x : R),
  (0 <= z)%Z -> IZR z <= IZR S * exp x ->
  (0 <= Fx.sq_iter k S z)%Z
  /\ IZR (Fx.sq_iter k S z) <= IZR S * exp (x * 2 ^ k).
Proof.
  induction k as [|k IH]; intros z x Hz Hx; cbn [Fx.sq_iter].
  - split; [assumption|]. now rewrite pow_O, Rmult_1_r.
  - destruct (sq_lo z (exp x) Hz Hx) as [Hz' Hx'].
    rewrite <- exp_plus in Hx'.
    destruct (IH _ _ Hz' Hx') as [H1 H2]. split; [assumption|].
    replace (x * 2 ^ Datatypes.S k) with ((x + x) * 2 ^ k)
      by (rewrite <- tech_pow_Rmult; ring).
    exact H2.
Qed.

Variables (k : nat) (a b : Z).
Hypothesis a_nonneg : (0 <= a)%Z.
Hypothesis b_pos : (0 < b)%Z.

Lemma den_pos : (0 < b * 2 ^ Z.of_nat k)%Z.
Proof. apply Z.mul_pos_pos; [assumption|]. apply Z.pow_pos_nonneg; lia. Qed.

Lemma IZR_den : IZR (b * 2 ^ Z.of_nat k) = IZR b * 2 ^ k.
Proof. now rewrite mult_IZR, <- pow_IZR. Qed.

Lemma ratio_nonneg : 0 <= IZR a / IZR b.
Proof.
  apply Rmult_le_pos; [now apply IZR_le|].
  apply Rlt_le, Rinv_0_lt_compat. now apply IZR_lt.
Qed.

(** The rounded first-order term [S * (a / b) / 2^k]. *)
Lemma first_order_bounds :
  (0 <= S * a / (b * 2 ^ Z.of_nat k))%Z
  /\ IZR (S * a / (b * 2 ^ Z.of_nat k))
     <= IZR S * (IZR a / IZR b / 2 ^ k)
     < IZR (S * a / (b * 2 ^ Z.of_nat k)) + 1.
Proof.
  pose proof den_pos as Hd.
  assert (Hb : 0 < IZR b) by now apply IZR_lt.
  assert (Hk : 0 < 2 ^ k) by (apply pow_lt; lra).
  assert (Hbk : 0 < IZR b * 2 ^ k) by now apply Rmult_lt_0_compat.
  assert (E : IZR S * (IZR a / IZR b / 2 ^ k) * (IZR b * 2 ^ k)
              = IZR (S * a)).
  { rewrite mult_IZR. field. split; lra. }
  split; [apply Z.div_pos; nia|]. split.
  - apply Rmult_le_reg_r with (IZR b * 2 ^ k); [assumption|].
    rewrite E, <- IZR_den. now apply IZR_div_le.
  - apply Rmult_lt_reg_r with (IZR b * 2 ^ k); [assumption|].
    rewrite E, <- IZR_den. change 1 with (IZR 1). rewrite <- plus_IZR.
    now apply IZR_div_gt.
Qed.

Lemma halved_doubled (t : R) : t / 2 ^ k * 2 ^ k = t.
Proof. field. apply pow_nonzero. lra. Qed.

Lemma exp_lo_pos_ok :
  (0 <= Fx.exp_lo_pos S k a b)%Z
  /\ IZR (Fx.exp_lo_pos S k a b) <= IZR S * exp (IZR a / IZR b).
Proof.
  destruct first_order_bounds as [Hq [Hq1 _]].
  assert (HS : 0 < IZR S) by now apply IZR_lt.
  set (t := IZR a / IZR b) in *.
  rewrite <- (halved_doubled t). unfold Fx.exp_lo_pos.
  apply sq_iter_lo; [lia|].
  rewrite plus_IZR.
  pose proof (exp_ineq1_le (t / 2 ^ k)). nra.
Qed.

Lemma exp_lo_neg_ok :
  IZR (Fx.exp_lo_neg S k a b) <= IZR S * exp (- (IZR a / IZR b)).
Proof.
  destruct first_order_bounds as [Hq [_ Hq2]].
  assert (HS : 0 < IZR S) by now apply IZR_lt.
  set (t := IZR a / IZR b) in *.
  unfold Fx.exp_lo_neg. cbv zeta.
  set (q := (S * a / (b * 2 ^ Z.of_nat k))%Z) in *.
  destruct (Z.ltb_spec (S - (q + 1)) 0) as [Hneg|Hpos].
  - pose proof (exp_pos (- t)). nra.
  - replace (- t) with (- (t / 2 ^ k) * 2 ^ k)
      by (rewrite <- (halved_doubled t) at 2; ring).
    apply sq_iter_lo; [assumption|].
    rewrite minus_IZR, plus_IZR.
    pose proof (exp_ineq1_le (- (t / 2 ^ k))). nra.
Qed.

Lemma exp_hi_neg_ok :
  IZR S * exp (- (IZR a / IZR b)) <= IZR (Fx.exp_hi_neg S k a b).
Proof.
  destruct exp_lo_pos_ok as [_ Hlo]. pose proof ratio_nonneg as Ht.
  assert (HS : 0 < IZR S) by now apply IZR_lt.
  set (t := IZR a / IZR b) in *.
  pose proof (exp_pos t) as Hp.
  assert (Hinv : exp (- t) * exp t = 1)
    by (rewrite <- exp_plus, Rplus_opp_l; apply exp_0).
  unfold Fx.exp_hi_neg. cbv zeta.
  destruct (Z.ltb_spec 0 (Fx.exp_lo_pos S k a b)) as [Hz|Hz].
  - pose proof (IZR_div_gt (S * S) _ Hz) as Hd.
    rewrite mult_IZR in Hd.
    assert (Hz' : 0 < IZR (Fx.exp_lo_pos S k a b)) by now apply IZR_lt.
    set (z := IZR (Fx.exp_lo_pos S k a b)) in *.
    set (u := IZR (S * S / Fx.exp_lo_pos S k a b + 1)) in *.
    pose proof (exp_pos (- t)) as Hn.
    apply Rmult_le_reg_r with z; [assumption|].
    apply Rle_trans with (IZR S * IZR S); [|lra].
    apply Rle_trans with (IZR S * exp (- t) * (IZR S * exp t)).
    + apply Rmult_le_compat_l; [nra | exact Hlo].
    + rewrite <- (Rmult_1_r (IZR S * IZR S)), <- Hinv. right. ring.
  - assert (exp (- t) <= 1).
    { rewrite <- exp_0. destruct Ht as [Ht|Ht].
      - left. apply exp_increasing. lra.
      - rewrite <- Ht, Ropp_0. lra. }
    nra.
Qed.

End FxSound.

(** ** Grid sums *)

Lemma trapz_cons2 (y0 y1 : R) (ys : list R) (x0 x1 : R) (xs : list R) :
  trapz (y0 :: y1 :: ys) (x0 :: x1 :: xs)
  = (x1 - x0) * ((y0 + y1) / 2) + trapz (y1 :: ys) (x1 :: xs).
Proof. reflexivity. Qed.

Lemma pair_sum_cons2 (y0 y1 : R) (ys : list R) :
  pair_sum (y0 :: y1 :: ys) = y0 + y1 + pair_sum (y1 :: ys).
Proof. reflexivity. Qed.

(** On a grid of constant step [h] the trapezoidal sum is [h / 2] times the
    sum of the consecutive pairs. *)
Lemma trapz_uniform (x0 h : R) : forall (n s : nat) (ys : list R),
  List.length ys = n ->
  trapz ys (map (fun i : nat => x0 + INR i * h) (seq s n))
  = h / 2 * pair_sum ys.
Proof.
  induction n as [|n IH]; intros s ys Hlen.
  - destruct ys; [cbn; ring | discriminate].
  - destruct ys as [|y0 ys]; [discriminate|].
    injection Hlen as Hlen.
    destruct ys as [|y1 ys].
    + subst n. cbn. ring.
    + destruct n as [|n]; [discriminate|].
      specialize (IH (Datatypes.S s) (y1 :: ys) Hlen).
      cbn [seq map] in IH |- *.
      rewrite trapz_cons2, pair_sum_cons2, IH, S_INR. field.
Qed.

Lemma pair_sum_le (ys ys' : list R) :
  Forall2 Rle ys ys' -> pair_sum ys <= pair_sum ys'.
Proof.
  induction 1 as [|y y' ys ys' Hy Hys IH]; [cbn; lra|].
  destruct Hys as [|z z' zs zs' Hz Hzs]; [cbn; lra|].
  rewrite !pair_sum_cons2. lra.
Qed.

Lemma pair_sum_scale (c : R) (ys : list R) :
  pair_sum (map (fun y => c * y) ys) = c * pair_sum ys.
Proof.
  induction ys as [|y0 ys IH]; [cbn; ring|].
  destruct ys as [|y1 ys]; [cbn; ring|].
  cbn [map] in IH |- *. rewrite !pair_sum_cons2, IH. ring.
Qed.

Lemma pair_sum_IZR (zs : list Z) :
  pair_sum (map IZR zs) = IZR (Fx.pair_sum zs).
Proof.
  induction zs as [|z0 zs IH]; [reflexivity|].
  destruct zs as [|z1 zs]; [reflexivity|].
  cbn [map] in IH |- *. rewrite pair_sum_cons2, IH.
  cbn [Fx.pair_sum]. now rewrite !plus_IZR.
Qed.

Lemma Forall2_map_pointwise {A B C : Type} (P : B -> C -> Prop)
    (f : A -> B) (g : A -> C) (l : list A) :
  (forall i, P (f i) (g i)) -> Forall2 P (map f l) (map g l).
Proof. intros H. induction l; cbn; constructor; auto. Qed.

Lemma trapz_x_range (ys : list R) :
  List.length ys = 90%nat -> trapz ys x_range = / 20 * pair_sum ys.
Proof.
  intros Hlen. unfold x_range.
  rewrite (trapz_uniform (-3) (1 / 10) 90 0 ys Hlen). field.
Qed.

Lemma scale_pos : (0 < Fx.scale)%Z.
Proof. reflexivity. Qed.

Section GridBounds.

(** A curve whose value at the [i]-th grid point is [exp (- num i / 100)]. *)
Variables (f : R -> R) (num : nat -> Z).
Hypothesis num_nonneg : forall i, (0 <= num i)%Z.
Hypothesis f_grid : forall i : nat,
  f (-3 + INR i * (1 / 10)) = exp (- (IZR (num i) / IZR 100)).

Lemma grid_curve :
  map f x_range
  = map (fun i => exp (- (IZR (num i) / IZR 100))) (seq 0 90).
Proof.
  unfold x_range. rewrite map_map. apply map_ext. intros i. apply f_grid.
Qed.

Lemma grid_trapz :
  trapz (map f x_range) x_range * (20 * IZR Fx.scale)
  = pair_sum (map (fun i => IZR Fx.scale * exp (- (IZR (num i) / IZR 100)))
                  (seq 0 90)).
Proof.
  rewrite trapz_x_range by (unfold x_range; now rewrite !length_map, length_seq).
  rewrite grid_curve.
  rewrite <- (map_map (fun i => exp (- (IZR (num i) / IZR 100)))
                      (fun y => IZR Fx.scale * y)).
  rewrite pair_sum_scale. field.
Qed.

Lemma grid_trapz_hi :
  trapz (map f x_range) x_range * (20 * IZR Fx.scale)
  <= IZR (Fx.grid_hi num).
Proof.
  rewrite grid_trapz. unfold Fx.grid_hi.
  rewrite <- pair_sum_IZR, map_map.
  apply pair_sum_le, Forall2_map_pointwise. intros i.
  apply exp_hi_neg_ok; [apply scale_pos | apply num_nonneg | reflexivity].
Qed.

Lemma grid_trapz_lo :
  IZR (Fx.grid_lo num)
  <= trapz (map f x_range) x_range * (20 * IZR Fx.scale).
Proof.
  rewrite grid_trapz. unfold Fx.grid_lo.
  rewrite <- pair_sum_IZR, map_map.
  apply pair_sum_le, Forall2_map_pointwise. intros i.
  apply exp_lo_neg_ok; [apply scale_pos | apply num_nonneg | reflexivity].
Qed.

End GridBounds.

Lemma gen_exp_grid (i : nat) :
  gen_exp (-3 + INR i * (1 / 10)) = exp (- (IZR (Fx.gen_num i) / IZR 100)).
Proof.
  unfold gen_exp, Fx.gen_num. f_equal.
  rewrite INR_IZR_INZ, <- (pow_IZR _ 2), minus_IZR. field.
Qed.

Lemma true_exp_grid (i : nat) :
  true_exp (-3 + INR i * (1 / 10)) = exp (- (IZR (Fx.true_num i) / IZR 100)).
Proof.
  unfold true_exp, Fx.true_num. f_equal.
  rewrite INR_IZR_INZ, mult_IZR, <- (pow_IZR _ 2), minus_IZR. field.
Qed.

Lemma gen_num_nonneg (i : nat) : (0 <= Fx.gen_num i)%Z.
Proof. unfold Fx.gen_num. nia. Qed.

Lemma true_num_nonneg (i : nat) : (0 <= Fx.true_num i)%Z.
Proof. unfold Fx.true_num. nia. Qed.

Lemma scale_IZR : IZR Fx.scale = 10 ^ 40.
Proof. rewrite pow_IZR. reflexivity. Qed.

Lemma IZR_lt_pow10 (z c : Z) (n : nat) :
  (z < c * 10 ^ Z.of_nat n)%Z -> IZR z < IZR c * 10 ^ n.
Proof.
  intros H. apply IZR_lt in H. now rewrite mult_IZR, <- pow_IZR in H.
Qed.

Lemma IZR_gt_pow10 (z c : Z) (n : nat) :
  (c * 10 ^ Z.of_nat n < z)%Z -> IZR c * 10 ^ n < IZR z.
Proof.
  intros H. apply IZR_lt in H. now rewrite mult_IZR, <- pow_IZR in H.
Qed.

(** The grid sum of [exp (- x^2)] is [1.77243..], a little under
    [sqrt PI]. *)
Lemma gen_exp_trapz :
  177243 / 100000 < trapz (map gen_exp x_range) x_range < 177244 / 100000.
Proof.
  pose proof (grid_trapz_hi gen_exp Fx.gen_num gen_num_nonneg gen_exp_grid) as Hhi.
  pose proof (grid_trapz_lo gen_exp Fx.gen_num gen_num_nonneg gen_exp_grid) as Hlo.
  assert (Eh : IZR (Fx.grid_hi Fx.gen_num) < 2 * 177244 * 10 ^ 36)
    by (apply (IZR_lt_pow10 _ (2 * 177244) 36); vm_compute; reflexivity).
  assert (El : 2 * 177243 * 10 ^ 36 < IZR (Fx.grid_lo Fx.gen_num))
    by (apply (IZR_gt_pow10 _ (2 * 177243) 36); vm_compute; reflexivity).
  rewrite scale_IZR in Hhi, Hlo.
  split; lra.
Qed.

(** ** Constants *)

Lemma PI_bounds : 3141592 / 1000000 < PI < 3141597 / 1000000.
Proof.
  pose proof (Machin.PI_2_3_7_ineq 2) as [Hlo Hhi].
  unfold sum_f_R0, tg_alt, Machin.PI_2_3_7_tg, Ratan_seq in Hlo, Hhi.
  cbn [Nat.mul Nat.add] in Hlo, Hhi.
  rewrite ?S_INR in Hlo, Hhi. cbn [INR] in Hlo, Hhi.
  split; lra.
Qed.

Lemma sqrt_between (a lo hi : R) :
  0 <= lo -> 0 <= hi -> lo * lo < a -> a < hi * hi -> lo < sqrt a < hi.
Proof.
  intros Hlo Hhi H1 H2.
  assert (Ha : 0 <= a) by nra.
  pose proof (sqrt_pos a) as Hs. pose proof (sqrt_sqrt a Ha) as Hss.
  split; nra.
Qed.

Lemma sqrt_2PI_bounds :
  2506627 / 1000000 < sqrt (2 * PI * 1) < 2506631 / 1000000.
Proof.
  pose proof PI_bounds. apply sqrt_between; lra.
Qed.

Lemma sqrt_PI_bounds :
  1772453 / 1000000 < sqrt (2 * PI * (1 / 2)) < 1772456 / 1000000.
Proof.
  pose proof PI_bounds. apply sqrt_between; lra.
Qed.

Lemma sqrt_2_bounds : 141421 / 100000 < sqrt 2 < 141422 / 100000.
Proof. apply sqrt_between; lra. Qed.

Lemma exp_gt_of_lo (a b c : Z) :
  (0 <= a)%Z -> (0 < b)%Z ->
  (c * 10 ^ 40 < Fx.exp_lo_pos Fx.scale Fx.halvings a b)%Z ->
  IZR c < exp (IZR a / IZR b).
Proof.
  intros Ha Hb Hc.
  destruct (exp_lo_pos_ok Fx.scale scale_pos Fx.halvings a b Ha Hb) as [_ H].
  apply (IZR_gt_pow10 _ c 40) in Hc. rewrite scale_IZR in H.
  assert (0 < 10 ^ 40) by (apply pow_lt; lra). nra.
Qed.

Lemma exp_neg_gt_of_lo (a b c d : Z) :
  (0 <= a)%Z -> (0 < b)%Z -> (0 < d)%Z ->
  (c * 10 ^ 40 < d * Fx.exp_lo_neg Fx.scale Fx.halvings a b)%Z ->
  IZR c / IZR d < exp (- (IZR a / IZR b)).
Proof.
  intros Ha Hb Hd Hc.
  pose proof (exp_lo_neg_ok Fx.scale scale_pos Fx.halvings a b Ha Hb) as H.
  apply (IZR_gt_pow10 _ c 40) in Hc. rewrite mult_IZR in Hc.
  rewrite scale_IZR in H.
  assert (0 < 10 ^ 40) by (apply pow_lt; lra).
  assert (0 < IZR d) by now apply IZR_lt.
  apply Rmult_lt_reg_r with (IZR d); [assumption|].
  unfold Rdiv at 1. rewrite Rmult_assoc, Rinv_l by lra. nra.
Qed.

Lemma ln_lt_of_exp (y u : R) : 0 < y -> y < exp u -> ln y < u.
Proof.
  intros Hy H. rewrite <- (ln_exp u). now apply ln_increasing.
Qed.

Lemma ln_gt_of_exp (y u : R) : 0 < y -> / y < exp (- u) -> u < ln y.
Proof.
  intros Hy H. rewrite <- (ln_exp u).
  apply ln_increasing; [apply exp_pos|].
  assert (Hinv : exp (- u) * exp u = 1)
    by (rewrite <- exp_plus, Rplus_opp_l; apply exp_0).
  apply Rmult_lt_reg_l with (exp (- u)); [apply exp_pos|].
  rewrite Hinv.
  apply (Rmult_lt_compat_r y) in H; [|assumption].
  rewrite Rinv_l in H; lra.
Qed.

Lemma ln_2_bounds : 69314 / 100000 < ln 2 < 69315 / 100000.
Proof.
  split.
  - apply ln_gt_of_exp; [lra|].
    replace (/ 2) with (IZR 1 / IZR 2) by lra.
    replace (69314 / 100000) with (IZR 69314 / IZR 100000) by lra.
    apply exp_neg_gt_of_lo; try lia. vm_compute. reflexivity.
  - apply ln_lt_of_exp; [lra|].
    replace (69315 / 100000) with (IZR 69315 / IZR 100000) by lra.
    apply (exp_gt_of_lo 69315 100000 2); try lia. vm_compute. reflexivity.
Qed.

Lemma ln_4 : ln 4 = 2 * ln 2.
Proof.
  replace 4 with (2 * 2) by lra. rewrite ln_mult by lra. ring.
Qed.

Lemma ln_half : ln (1 / 2) = - ln 2.
Proof.
  replace (1 / 2) with (/ 2) by lra. apply ln_Rinv. lra.
Qed.

(** ** Linearity and monotonicity of the grid integral *)

Lemma trapz_map_lin {A : Type} (f g : A -> R) (c : R) :
  forall (l : list A) (xs : list R),
  trapz (map (fun a => f a + c * g a) l) xs
  = trapz (map f l) xs + c * trapz (map g l) xs.
Proof.
  induction l as [|a0 l IH]; intros xs; [cbn; ring|].
  destruct xs as [|x0 xs]; [cbn; ring|].
  destruct l as [|a1 l]; [cbn; ring|].
  destruct xs as [|x1 xs]; [cbn; ring|].
  specialize (IH (x1 :: xs)).
  cbn [map] in IH |- *. rewrite !trapz_cons2, IH. field.
Qed.

Lemma trapz_map_zero {A : Type} :
  forall (l : list A) (xs : list R), trapz (map (fun _ => 0) l) xs = 0.
Proof.
  induction l as [|a0 l IH]; intros xs; [reflexivity|].
  destruct xs as [|x0 xs]; [reflexivity|].
  destruct l as [|a1 l]; [reflexivity|].
  destruct xs as [|x1 xs]; [reflexivity|].
  specialize (IH (x1 :: xs)).
  cbn [map] in IH |- *. rewrite trapz_cons2, IH. field.
Qed.

Lemma trapz_map_scale {A : Type} (g : A -> R) (c : R)
    (l : list A) (xs : list R) :
  trapz (map (fun a => c * g a) l) xs = c * trapz (map g l) xs.
Proof.
  rewrite (map_ext (fun a => c * g a) (fun a => 0 + c * g a))
    by (intros; ring).
  rewrite (trapz_map_lin (fun _ => 0) g c l xs), trapz_map_zero. ring.
Qed.

Lemma trapz_x_range_le (f g : R -> R) :
  (forall x, f x <= g x) ->
  trapz (map f x_range) x_range <= trapz (map g x_range) x_range.
Proof.
  intros H.
  rewrite !trapz_x_range by (unfold x_range; now rewrite !length_map, length_seq).
  apply Rmult_le_compat_l; [lra|].
  now apply pair_sum_le, Forall2_map_pointwise.
Qed.

(** ** The densities of the demo on the grid *)

Lemma gen_model_exp (x : R) :
  make_gaussian_model 0 1 x = / sqrt (2 * PI * 1) * gen_exp x.
Proof.
  unfold make_gaussian_model, gaussian_model, gen_exp, Rdiv. ring.
Qed.

Lemma true_model_exp (x : R) :
  make_gaussian_model 3 (1 / 2) x = / sqrt (2 * PI * (1 / 2)) * true_exp x.
Proof.
  unfold make_gaussian_model, gaussian_model, true_exp, Rdiv. ring.
Qed.

Lemma true_exp_trapz :
  trapz (map true_exp x_range) x_range < 125332 / 100000.
Proof.
  pose proof (grid_trapz_hi true_exp Fx.true_num true_num_nonneg true_exp_grid)
    as Hhi.
  assert (Eh : IZR (Fx.grid_hi Fx.true_num) < 2 * 125332 * 10 ^ 36)
    by (apply (IZR_lt_pow10 _ (2 * 125332) 36); vm_compute; reflexivity).
  rewrite scale_IZR in Hhi. lra.
Qed.

Lemma div_between (t s tl th sl sh : R) :
  0 < sl -> 0 < tl -> tl < t < th -> sl < s < sh ->
  tl / sh < / s * t < th / sl.
Proof.
  intros Hsl Htl [Ht1 Ht2] [Hs1 Hs2].
  assert (Hs : 0 < s) by lra.
  assert (Hi : / s * s = 1) by (apply Rinv_l; lra).
  assert (His : 0 < / s) by now apply Rinv_0_lt_compat.
  assert (Hhi : 1 < / s * sh) by (rewrite <- Hi; apply Rmult_lt_compat_l; lra).
  assert (Hlo : / s * sl < 1) by (rewrite <- Hi; apply Rmult_lt_compat_l; lra).
  split.
  - apply Rmult_lt_reg_r with sh; [lra|].
    unfold Rdiv. rewrite Rmult_assoc, Rinv_l by lra.
    replace (/ s * t * sh) with (t * (/ s * sh)) by ring. nra.
  - apply Rmult_lt_reg_r with sl; [lra|].
    unfold Rdiv. rewrite (Rmult_assoc th), Rinv_l by lra.
    replace (/ s * t * sl) with (t * (/ s * sl)) by ring. nra.
Qed.

(** The grid integral of the generator density [(0, 1)]. *)
Lemma gen_model_trapz :
  707096 / 1000000
  < trapz (map (make_gaussian_model 0 1) x_range) x_range
  < 707102 / 1000000.
Proof.
  rewrite (map_ext _ _ gen_model_exp), trapz_map_scale.
  assert (Hs : 0 < 2506627 / 1000000) by lra.
  assert (Ht : 0 < 177243 / 100000) by lra.
  destruct (div_between _ _ _ _ _ _ Hs Ht gen_exp_trapz sqrt_2PI_bounds)
    as [H1 H2].
  split; [eapply Rlt_trans; [|exact H1] | eapply Rlt_trans; [exact H2|]]; lra.
Qed.

(** The grid integral of the target density [(3, 0.5)]. *)
Lemma true_model_trapz :
  0 <= trapz (map (make_gaussian_model 3 (1 / 2)) x_range) x_range
  < 707111 / 1000000.
Proof.
  split.
  - rewrite <- (trapz_map_zero x_range x_range).
    apply trapz_x_range_le. intros x. left.
    apply gaussian_model_pos. lra.
  - rewrite (map_ext _ _ true_model_exp), trapz_map_scale.
    pose proof true_exp_trapz as Ht. pose proof sqrt_PI_bounds as [Hs1 Hs2].
    set (T := trapz (map true_exp x_range) x_range) in *.
    set (s := sqrt (2 * PI * (1 / 2))) in *.
    assert (Hi : / s * s = 1) by (apply Rinv_l; lra).
    assert (His : 0 < / s) by (apply Rinv_0_lt_compat; lra).
    apply Rmult_lt_reg_r with s; [lra|]. nra.
Qed.

(** ** The density under an affine change of grid *)

Section Rescale.

Variables (mean variance : R).
Hypothesis variance_pos : 0 < variance.

Lemma sqrt_variance_pos : 0 < sqrt variance.
Proof. now apply sqrt_lt_R0. Qed.

Lemma sqrt_variance_sqr : sqrt variance * sqrt variance = variance.
Proof. apply sqrt_sqrt. lra. Qed.

Lemma gaussian_model_rescale (u : R) :
  gaussian_model (mean + sqrt variance * u) mean variance
  = gaussian_model u 0 1 / sqrt variance.
Proof.
  pose proof sqrt_variance_pos as Hs. pose proof sqrt_variance_sqr as Hss.
  pose proof (norm_const_pos 1 Rlt_0_1) as Hn. pose proof PI_RGT_0 as Hpi.
  unfold gaussian_model.
  replace (2 * PI * variance) with (2 * PI * 1 * variance) by ring.
  rewrite sqrt_mult; [|lra|lra].
  set (s := sqrt variance) in *. clearbody s.
  replace (- (mean + s * u - mean) ^ 2 / variance) with (- (u - 0) ^ 2 / 1).
  - field. split; lra.
  - replace ((mean + s * u - mean) ^ 2) with (u ^ 2 * (s * s)) by ring.
    rewrite Hss. field. lra.
Qed.

Lemma trapz_rescale : forall xs : list R,
  let grid := map (fun u => mean + sqrt variance * u) xs in
  trapz (map (make_gaussian_model mean variance) grid) grid
  = trapz (map (make_gaussian_model 0 1) xs) xs.
Proof.
  pose proof sqrt_variance_pos as Hs.
  induction xs as [|x0 xs IH]; [reflexivity|].
  destruct xs as [|x1 xs]; [reflexivity|].
  cbn zeta in IH |- *. cbn [map] in IH |- *.
  rewrite !trapz_cons2, IH.
  unfold make_gaussian_model. rewrite !gaussian_model_rescale.
  field. lra.
Qed.

End Rescale.

(** ** A narrow density on the demo grid *)

Lemma narrow_exponent (i : nat) :
  (-3 + INR i * (1 / 10) - 0) ^ 2 / (16 / 10000)
  = IZR (narrow_num i) / IZR 100.
Proof.
  unfold narrow_num.
  rewrite INR_IZR_INZ, mult_IZR, <- (pow_IZR _ 2), minus_IZR. field.
Qed.

Lemma narrow_exp_grid (i : nat) :
  narrow_exp (-3 + INR i * (1 / 10)) = exp (- (IZR (narrow_num i) / IZR 100)).
Proof.
  unfold narrow_exp. rewrite <- narrow_exponent. f_equal. field.
Qed.

Lemma narrow_cap_grid (i : nat) :
  narrow_cap (-3 + INR i * (1 / 10))
  = exp (- (IZR (narrow_num_cap i) / IZR 100)).
Proof.
  unfold narrow_cap, narrow_num_cap. rewrite narrow_exponent. f_equal. f_equal.
  destruct (Z.min_spec (narrow_num i) 2500) as [[H ->]|[H ->]].
  - apply Rmin_left. apply IZR_lt in H. lra.
  - replace (IZR 2500 / IZR 100) with 25 by lra.
    apply Rmin_right. apply IZR_le in H. lra.
Qed.

Lemma narrow_num_nonneg (i : nat) : (0 <= narrow_num i)%Z.
Proof. unfold narrow_num. nia. Qed.

Lemma narrow_num_cap_nonneg (i : nat) : (0 <= narrow_num_cap i)%Z.
Proof. pose proof (narrow_num_nonneg i). unfold narrow_num_cap. lia. Qed.

Lemma narrow_exp_le_cap (x : R) : narrow_exp x <= narrow_cap x.
Proof.
  unfold narrow_exp, narrow_cap.
  set (t := (x - 0) ^ 2 / (16 / 10000)).
  replace (- (x - 0) ^ 2 / (16 / 10000)) with (- t) by (unfold t; field).
  pose proof (Rmin_l t 25) as Hm.
  destruct Hm as [Hm|Hm]; [left; apply exp_increasing; lra | rewrite Hm; lra].
Qed.

Lemma narrow_exp_trapz :
  100386 / 1000000 < trapz (map narrow_exp x_range) x_range
  < 100387 / 1000000.
Proof.
  pose proof (grid_trapz_lo narrow_exp narrow_num narrow_num_nonneg
                narrow_exp_grid) as Hlo.
  pose proof (grid_trapz_hi narrow_cap narrow_num_cap narrow_num_cap_nonneg
                narrow_cap_grid) as Hhi.
  pose proof (trapz_x_range_le _ _ narrow_exp_le_cap) as Hle.
  assert (Eh : IZR (Fx.grid_hi narrow_num_cap) < 2 * 100387 * 10 ^ 35)
    by (apply (IZR_lt_pow10 _ (2 * 100387) 35); vm_compute; reflexivity).
  assert (El : 2 * 100386 * 10 ^ 35 < IZR (Fx.grid_lo narrow_num))
    by (apply (IZR_gt_pow10 _ (2 * 100386) 35); vm_compute; reflexivity).
  rewrite scale_IZR in Hhi, Hlo.
  split; lra.
Qed.

Lemma narrow_model_exp (x : R) :
  make_gaussian_model 0 (16 / 10000) x
  = / sqrt (2 * PI * (16 / 10000)) * narrow_exp x.
Proof.
  unfold make_gaussian_model, gaussian_model, narrow_exp, Rdiv. ring.
Qed.

Lemma narrow_sqrt_bounds :
  10026 / 100000 < sqrt (2 * PI * (16 / 10000)) < 10027 / 100000.
Proof. pose proof PI_bounds. apply sqrt_between; lra. Qed.

Lemma narrow_model_trapz :
  1001 / 1000
  < trapz (map (make_gaussian_model 0 (16 / 10000)) x_range) x_range
  < 1002 / 1000.
Proof.
  rewrite (map_ext _ _ narrow_model_exp), trapz_map_scale.
  assert (Hs : 0 < 10026 / 100000) by lra.
  assert (Ht : 0 < 100386 / 1000000) by lra.
  destruct (div_between _ _ _ _ _ _ Hs Ht narrow_exp_trapz narrow_sqrt_bounds)
    as [H1 H2].
  split; [eapply Rlt_trans; [|exact H1] | eapply Rlt_trans; [exact H2|]]; lra.
Qed.

(** C5, as stated, fails: for the valid pair [(mean, variance) = (0, 0.0016)]
    the trapezoidal sum of the density over the demo grid is within
    [2/1000] of 1 and more than [29/100] away from [1 / sqrt 2]. *)
Lemma density_sum_near_one :
  0 < 16 / 10000
  /\ Rabs (trapz (map (make_gaussian_model 0 (16 / 10000)) x_range) x_range
           - 1) < 2 / 1000
  /\ 29 / 100
     < Rabs (trapz (map (make_gaussian_model 0 (16 / 10000)) x_range) x_range
             - 1 / sqrt 2).
Proof.
  pose proof narrow_model_trapz as [H1 H2].
  pose proof sqrt_2_bounds as [Hs1 Hs2].
  assert (Hi : / sqrt 2 * sqrt 2 = 1) by (apply Rinv_l; lra).
  assert (Hq : 1 / sqrt 2 < 71 / 100).
  { assert (0 < / sqrt 2) by (apply Rinv_0_lt_compat; lra).
    unfold Rdiv. rewrite Rmult_1_l. nra. }
  split; [lra|]. split.
  - apply Rabs_def1; lra.
  - rewrite Rabs_pos_eq; lra.
Qed.

(** C5, amended: on the demo grid the density with
    [(mean, variance) = (0, 1)] has the trapezoidal sum [0.7071..]: within
    [1/10000] of [1 / sqrt 2] and more than [29/100] below 1.  For every
    mean and positive variance the same sum is obtained on the demo grid
    shifted by the mean and scaled by [sqrt variance], a grid as wide and
    as fine relative to the distribution. *)
Theorem density_not_normalized (mean variance : R) :
  0 < variance ->
  let unit_sum := trapz (map (make_gaussian_model 0 1) x_range) x_range in
  let grid := map (fun u => mean + sqrt variance * u) x_range in
  let grid_sum := trapz (map (make_gaussian_model mean variance) grid) grid in
  Rabs (unit_sum - 1 / sqrt 2) < 1 / 10000
  /\ unit_sum < 1 - 29 / 100
  /\ grid_sum = unit_sum
  /\ Rabs (grid_sum - 1 / sqrt 2) < 1 / 10000
  /\ grid_sum < 1 - 29 / 100.
Proof.
  intros Hv unit_sum grid grid_sum.
  assert (E : grid_sum = unit_sum) by now apply trapz_rescale.
  assert (B : Rabs (unit_sum - 1 / sqrt 2) < 1 / 10000
              /\ unit_sum < 1 - 29 / 100).
  { pose proof gen_model_trapz as [H1 H2]. fold unit_sum in H1, H2.
    pose proof sqrt_2_bounds as [Hs1 Hs2].
    assert (Hi : / sqrt 2 * sqrt 2 = 1) by (apply Rinv_l; lra).
    assert (707103 / 1000000 < 1 / sqrt 2 < 707109 / 1000000).
    { assert (0 < / sqrt 2) by (apply Rinv_0_lt_compat; lra).
      unfold Rdiv at 2 3. rewrite Rmult_1_l. split; nra. }
    split; [apply Rabs_def1|]; lra. }
  rewrite E. tauto.
Qed.

Lemma density_not_normalized_witness :
  0 < 1 /\
  trapz (map (make_gaussian_model 0 1) x_range) x_range < 1 - 29 / 100.
Proof.
  split; [lra | apply (density_not_normalized 0 1); lra].
Defined.

(** ** The minimax curve with equal parameters *)

Lemma clamp_half : clamp (1 - 1 / 2) clamp_floor = 1 / 2.
Proof.
  assert (H : 2 <= 10 ^ 50).
  { apply Rle_trans with (10 ^ 1); [lra|]. apply Rle_pow; [lra|lia]. }
  unfold clamp, clamp_floor. rewrite Rmax_left; [lra|].
  apply Rmult_le_reg_r with (10 ^ 50); [lra|].
  rewrite Rinv_l by lra. lra.
Qed.

Lemma value_fn_equal_params (x : R) :
  value_fn x (make_gaussian_model 0 1) (make_gaussian_model 0 1) "v"
  = (- 2 * ln 2) * make_gaussian_model 0 1 x.
Proof.
  unfold value_fn. cbn [String.eqb Ascii.eqb Bool.eqb]. cbv zeta.
  rewrite (discriminator_same x (make_gaussian_model 0 1))
    by (apply gaussian_model_pos; lra).
  rewrite clamp_half, ln_half. ring.
Qed.

(** C6: with both parameter pairs [(0, 1)] the trapezoidal integral of the
    minimax curve over the demo grid lies between [-0.98026] and
    [-0.98023], more than [2/5] above [-log 4]. *)
Theorem minimax_integral_equal_params :
  let c := js_redraw_rule 0 1 0 1 "v" in
  - 98026 / 100000 < trapz (value_curve c) x_range < - 98023 / 100000
  /\ 2 / 5 < trapz (value_curve c) x_range - (- ln 4).
Proof.
  cbv zeta. cbn [value_curve js_redraw_rule].
  rewrite (map_ext _ _ value_fn_equal_params), trapz_map_scale, ln_4.
  pose proof gen_model_trapz as [H1 H2]. pose proof ln_2_bounds as [L1 L2].
  set (I0 := trapz (map (make_gaussian_model 0 1) x_range) x_range) in *.
  repeat split; nra.
Qed.

(** ** The offset between the Jensen-Shannon and the minimax curve *)

Lemma js_integral (p_true p_gen : R -> R) (l xs : list R) :
  trapz (map (fun x => value_fn x p_true p_gen "js") l) xs
  = trapz (map (fun x => value_fn x p_true p_gen "v") l) xs
    - ln (1 / 2) * (trapz (map p_true l) xs + trapz (map p_gen l) xs).
Proof.
  rewrite (map_ext (fun x => value_fn x p_true p_gen "js")
             (fun x => value_fn x p_true p_gen "v"
                       + - ln (1 / 2) * (p_true x + 1 * p_gen x)))
    by (intros x; rewrite value_fn_js; ring).
  rewrite (trapz_map_lin (fun x => value_fn x p_true p_gen "v")
             (fun x => p_true x + 1 * p_gen x)).
  rewrite (trapz_map_lin p_true p_gen). ring.
Qed.

Lemma gen_model_at_0 : make_gaussian_model 0 1 0 < 1 / 2.
Proof.
  rewrite gen_model_exp. unfold gen_exp.
  replace (- (0 - 0) ^ 2 / 1) with 0 by field. rewrite exp_0, Rmult_1_r.
  pose proof sqrt_2PI_bounds as [Hs _].
  assert (Hi : / sqrt (2 * PI * 1) * sqrt (2 * PI * 1) = 1)
    by (apply Rinv_l; lra).
  nra.
Qed.

(** C3, as stated, fails: with both parameter pairs [(0, 1)] the
    Jensen-Shannon curve at [x = 0] is not the minimax curve minus
    [2 * log(0.5)], and neither is its grid integral. *)
Lemma js_offset_not_constant :
  value_fn 0 (make_gaussian_model 0 1) (make_gaussian_model 0 1) "js"
  <> value_fn 0 (make_gaussian_model 0 1) (make_gaussian_model 0 1) "v"
     - 2 * ln (1 / 2)
  /\ trapz (value_curve (js_redraw_rule 0 1 0 1 "js")) x_range
     <> trapz (value_curve (js_redraw_rule 0 1 0 1 "v")) x_range
        - 2 * ln (1 / 2).
Proof.
  pose proof ln_2_bounds as [L1 _]. pose proof ln_half as Lh.
  split.
  - rewrite value_fn_js. pose proof gen_model_at_0 as H0. intros E. nra.
  - cbn [value_curve js_redraw_rule]. rewrite js_integral.
    pose proof gen_model_trapz as [_ H2]. intros E. nra.
Qed.

(** C3, amended: for positive variances, pointwise the Jensen-Shannon curve
    is the minimax curve minus [(P_true(x) + P_gen(x)) * log(0.5)], and the
    grid integral of the Jensen-Shannon curve is that of the minimax curve
    minus [log(0.5)] times the sum of the grid integrals of the two
    densities. *)
Theorem js_minimax_offset (x tm tv gm gv : R) :
  0 < tv -> 0 < gv ->
  let p_true := make_gaussian_model tm tv in
  let p_gen := make_gaussian_model gm gv in
  let js := js_redraw_rule gm gv tm tv "js" in
  let v := js_redraw_rule gm gv tm tv "v" in
  value_fn x p_true p_gen "js"
    = value_fn x p_true p_gen "v" - (p_true x + p_gen x) * ln (1 / 2)
  /\ trapz (value_curve js) x_range
     = trapz (value_curve v) x_range
       - ln (1 / 2) * (trapz (true_density v) x_range
                       + trapz (gen_density v) x_range).
Proof.
  intros _ _. cbv zeta. split; [apply value_fn_js|].
  cbn [value_curve true_density gen_density js_redraw_rule].
  apply js_integral.
Qed.

Lemma js_minimax_offset_witness :
  0 < 1 / 2 /\ 0 < 1 /\
  value_fn 0 (make_gaussian_model 3 (1 / 2)) (make_gaussian_model 0 1) "js"
  = value_fn 0 (make_gaussian_model 3 (1 / 2)) (make_gaussian_model 0 1) "v"
    - (make_gaussian_model 3 (1 / 2) 0 + make_gaussian_model 0 1 0)
      * ln (1 / 2).
Proof.
  split; [lra|]. split; [lra|].
  apply (js_minimax_offset 0 3 (1 / 2) 0 1); lra.
Defined.

(** ** A lower bound of the minimax curve *)

Lemma ln_lower (u : R) : 0 < u -> 1 - / u <= ln u.
Proof.
  intros Hu. pose proof (exp_ineq1_le (- ln u)) as H.
  rewrite exp_Ropp, exp_ln in H by assumption. lra.
Qed.

Lemma ln_le_mono (u w : R) : 0 < u -> u <= w -> ln u <= ln w.
Proof.
  intros Hu [H|H]; [left; now apply ln_increasing | right; now rewrite H].
Qed.

Lemma gibbs (a b : R) :
  0 < a -> 0 < b ->
  - (a + b) * ln 2 <= a * ln (a / (a + b)) + b * ln (b / (a + b)).
Proof.
  intros Ha Hb.
  assert (Hab : 0 < a + b) by lra.
  assert (Hda : 0 < a / (a + b)) by (apply Rdiv_lt_0_compat; lra).
  assert (Hdb : 0 < b / (a + b)) by (apply Rdiv_lt_0_compat; lra).
  pose proof (ln_lower (2 * (a / (a + b))) ltac:(lra)) as Ga.
  pose proof (ln_lower (2 * (b / (a + b))) ltac:(lra)) as Gb.
  rewrite ln_mult in Ga, Gb by lra.
  replace (/ (2 * (a / (a + b)))) with ((a + b) / (2 * a)) in Ga
    by (field; lra).
  replace (/ (2 * (b / (a + b)))) with ((a + b) / (2 * b)) in Gb
    by (field; lra).
  apply (Rmult_le_compat_l a) in Ga; [|lra].
  apply (Rmult_le_compat_l b) in Gb; [|lra].
  replace (a * (1 - (a + b) / (2 * a))) with (a - (a + b) / 2) in Ga
    by (field; lra).
  replace (b * (1 - (a + b) / (2 * b))) with (b - (a + b) / 2) in Gb
    by (field; lra).
  lra.
Qed.

Lemma value_fn_v_lower (x : R) (p_true p_gen : R -> R) :
  0 < p_true x -> 0 < p_gen x ->
  - (p_true x + p_gen x) * ln 2 <= value_fn x p_true p_gen "v".
Proof.
  intros Ht Hg. rewrite value_fn_v. unfold discriminator.
  set (a := p_true x) in *. set (b := p_gen x) in *.
  assert (E : 1 - a / (a + b) = b / (a + b)) by (field; lra).
  assert (Hdb : 0 < b / (a + b)) by (apply Rdiv_lt_0_compat; lra).
  pose proof (gibbs a b Ht Hg) as G.
  pose proof (ln_le_mono (b / (a + b)) (Rmax (1 - a / (a + b)) (/ 10 ^ 50))
                Hdb) as M.
  rewrite E in *. specialize (M (Rmax_l _ _)).
  apply (Rmult_le_compat_l b) in M; lra.
Qed.

(** ** The demo scenario: target [(3, 0.5)], generator [(0, 1)] *)

Lemma exp_neg_le (t : R) : 0 <= t -> exp (- t) <= / (1 + t).
Proof.
  intros Ht. pose proof (exp_ineq1_le t) as H. pose proof (exp_pos t) as Hp.
  rewrite exp_Ropp. apply Rinv_le_contravar; lra.
Qed.

Lemma demo_densities_at_3 :
  9 * make_gaussian_model 0 1 3 < make_gaussian_model 3 (1 / 2) 3.
Proof.
  rewrite gen_model_exp, true_model_exp. unfold gen_exp, true_exp.
  replace (- (3 - 3) ^ 2 / (1 / 2)) with 0 by field.
  replace (- (3 - 0) ^ 2 / 1) with (Ropp 9) by field.
  rewrite exp_0. pose proof (exp_neg_le 9 ltac:(lra)) as He.
  pose proof (exp_pos (Ropp 9)) as Hp.
  pose proof sqrt_2PI_bounds as [G1 G2]. pose proof sqrt_PI_bounds as [T1 T2].
  set (sg := sqrt (2 * PI * 1)) in *. set (st := sqrt (2 * PI * (1 / 2))) in *.
  assert (Hg : / sg * sg = 1) by (apply Rinv_l; lra).
  assert (Ht : / st * st = 1) by (apply Rinv_l; lra).
  assert (0 < / sg) by (apply Rinv_0_lt_compat; lra).
  assert (0 < / st) by (apply Rinv_0_lt_compat; lra).
  assert (/ sg < 2 / 5) by nra.
  assert (1 / 2 < / st) by nra.
  assert (/ sg * exp (Ropp 9) <= 2 / 5 * / (1 + 9))
    by (apply Rmult_le_compat; lra).
  lra.
Qed.

Lemma demo_densities_at_0 :
  4 * make_gaussian_model 3 (1 / 2) 0 < make_gaussian_model 0 1 0.
Proof.
  rewrite gen_model_exp, true_model_exp. unfold gen_exp, true_exp.
  replace (- (0 - 0) ^ 2 / 1) with 0 by field.
  replace (- (0 - 3) ^ 2 / (1 / 2)) with (Ropp 18) by field.
  rewrite exp_0. pose proof (exp_neg_le 18 ltac:(lra)) as He.
  pose proof (exp_pos (Ropp 18)) as Hp.
  pose proof sqrt_2PI_bounds as [G1 G2]. pose proof sqrt_PI_bounds as [T1 T2].
  set (sg := sqrt (2 * PI * 1)) in *. set (st := sqrt (2 * PI * (1 / 2))) in *.
  assert (Hg : / sg * sg = 1) by (apply Rinv_l; lra).
  assert (Ht : / st * st = 1) by (apply Rinv_l; lra).
  assert (0 < / sg) by (apply Rinv_0_lt_compat; lra).
  assert (0 < / st) by (apply Rinv_0_lt_compat; lra).
  assert (1 / 3 < / sg) by nra.
  assert (/ st < 1) by nra.
  assert (/ st * exp (Ropp 18) <= 1 * / (1 + 18))
    by (apply Rmult_le_compat; lra).
  lra.
Qed.

Lemma ratio_gt (a b : R) : 0 < a -> 0 < b -> 9 * b < a -> 9 / 10 < a / (a + b).
Proof.
  intros Ha Hb H. apply Rmult_lt_reg_r with (a + b); [lra|].
  unfold Rdiv at 2. rewrite Rmult_assoc, Rinv_l; lra.
Qed.

Lemma ratio_lt (a b : R) : 0 < a -> 0 < b -> 4 * a < b -> a / (a + b) < 2 / 10.
Proof.
  intros Ha Hb H. apply Rmult_lt_reg_r with (a + b); [lra|].
  unfold Rdiv at 1. rewrite Rmult_assoc, Rinv_l; lra.
Qed.

Lemma demo_discriminator :
  9 / 10 < discriminator 3 (make_gaussian_model 3 (1 / 2))
                           (make_gaussian_model 0 1)
  /\ discriminator 0 (make_gaussian_model 3 (1 / 2))
                     (make_gaussian_model 0 1) < 2 / 10.
Proof.
  unfold discriminator. split.
  - apply ratio_gt; [apply gaussian_model_pos; lra ..|].
    apply demo_densities_at_3.
  - apply ratio_lt; [apply gaussian_model_pos; lra ..|].
    apply demo_densities_at_0.
Qed.

Lemma demo_minimax_integral :
  - ln 4 < trapz (value_curve (js_redraw_rule 0 1 3 (1 / 2) "v")) x_range.
Proof.
  cbn [value_curve js_redraw_rule].
  set (p_true := make_gaussian_model 3 (1 / 2)).
  set (p_gen := make_gaussian_model 0 1).
  assert (L : forall x, - ln 2 * (p_true x + 1 * p_gen x)
                        <= value_fn x p_true p_gen "v").
  { intros x. rewrite Rmult_1_l, <- Ropp_mult_distr_l, Rmult_comm,
      Ropp_mult_distr_l.
    apply value_fn_v_lower; apply gaussian_model_pos; lra. }
  pose proof (trapz_x_range_le _ _ L) as H.
  rewrite (trapz_map_scale (fun x => p_true x + 1 * p_gen x)) in H.
  rewrite (trapz_map_lin p_true p_gen 1) in H.
  pose proof true_model_trapz as [_ Ht]. pose proof gen_model_trapz as [_ Hg].
  fold p_true in Ht. fold p_gen in Hg.
  pose proof ln_2_bounds as [L1 _]. rewrite ln_4.
  eapply Rlt_le_trans; [|exact H]. nra.
Qed.

(** C10, as stated, fails: in the demo scenario the grid integral of the
    minimax curve is not below [-log 4]. *)
Lemma demo_scenario_not_below :
  ~ (9 / 10 < discriminator 3 (make_gaussian_model 3 (1 / 2))
                              (make_gaussian_model 0 1)
     /\ discriminator 0 (make_gaussian_model 3 (1 / 2))
                        (make_gaussian_model 0 1) < 2 / 10
     /\ trapz (value_curve (js_redraw_rule 0 1 3 (1 / 2) "v")) x_range
        < - ln 4).
Proof.
  intros [_ [_ H]]. pose proof demo_minimax_integral. lra.
Qed.

(** C10, amended: in the demo scenario (target [(3, 0.5)], generator
    [(0, 1)], rule ['v']) the discriminator is above [0.9] at [x = 3],
    below [0.2] at [x = 0], and the grid integral of the minimax curve is
    strictly greater than [-log 4]. *)
Theorem demo_scenario :
  9 / 10 < discriminator 3 (make_gaussian_model 3 (1 / 2))
                           (make_gaussian_model 0 1)
  /\ discriminator 0 (make_gaussian_model 3 (1 / 2))
                     (make_gaussian_model 0 1) < 2 / 10
  /\ - ln 4 < trapz (value_curve (js_redraw_rule 0 1 3 (1 / 2) "v")) x_range.
Proof.
  destruct demo_discriminator as [H1 H2].
  repeat split; [exact H1 | exact H2 | apply demo_minimax_integral].
Qed.

(** * Further properties of the notebooks' functions *)

(** ** The density *)

(** X1: the density is symmetric about its mean. *)
Theorem gaussian_model_symmetric (mean variance t : R) :
  gaussian_model (mean + t) mean variance
  = gaussian_model (mean - t) mean variance
  /\ NonSaturatingGAN.gaussian_model (mean + t) mean variance
     = NonSaturatingGAN.gaussian_model (mean - t) mean variance.
Proof.
  unfold NonSaturatingGAN.gaussian_model, gaussian_model.
  replace ((mean + t - mean) ^ 2) with ((mean - t - mean) ^ 2) by ring.
  split; reflexivity.
Qed.

Lemma exponent_nonpos (x mean variance : R) :
  0 < variance -> - (x - mean) ^ 2 / variance <= 0.
Proof.
  intros Hv. pose proof (pow2_ge_0 (x - mean)) as Hsq.
  assert (Hi : 0 < / variance) by now apply Rinv_0_lt_compat.
  unfold Rdiv. nra.
Qed.

Lemma gaussian_model_at_mean (mean variance : R) :
  gaussian_model mean mean variance = / sqrt (2 * PI * variance).
Proof.
  unfold gaussian_model.
  replace (- (mean - mean) ^ 2 / variance) with 0 by (unfold Rdiv; ring).
  rewrite exp_0. unfold Rdiv. ring.
Qed.

Lemma gaussian_model_le_peak (x mean variance : R) :
  0 < variance ->
  gaussian_model x mean variance <= / sqrt (2 * PI * variance).
Proof.
  intros Hv. pose proof (norm_const_pos variance Hv) as Hn.
  assert (Hi : 0 < / sqrt (2 * PI * variance)) by now apply Rinv_0_lt_compat.
  assert (He : exp (- (x - mean) ^ 2 / variance) <= 1).
  { rewrite <- exp_0. destruct (exponent_nonpos x mean variance Hv) as [H|H].
    - left. now apply exp_increasing.
    - rewrite H. lra. }
  unfold gaussian_model, Rdiv. nra.
Qed.

(** X2: for a positive variance the density is nowhere above its value at
    the mean, which is [1 / sqrt(2*pi*variance)]. *)
Theorem gaussian_model_peak (x mean variance : R) :
  0 < variance ->
  gaussian_model mean mean variance = / sqrt (2 * PI * variance)
  /\ gaussian_model x mean variance <= gaussian_model mean mean variance.
Proof.
  intros Hv. rewrite gaussian_model_at_mean.
  split; [reflexivity | now apply gaussian_model_le_peak].
Qed.

Lemma gaussian_model_peak_witness :
  0 < 1 /\ gaussian_model 1 0 1 <= gaussian_model 0 0 1.
Proof.
  split; [lra | apply (gaussian_model_peak 1 0 1); lra].
Defined.

Lemma sqr_lt_abs (p q : R) : q ^ 2 < p ^ 2 <-> Rabs q < Rabs p.
Proof.
  replace (q ^ 2) with (Rsqr q) by (unfold Rsqr; ring).
  replace (p ^ 2) with (Rsqr p) by (unfold Rsqr; ring).
  split; [apply Rsqr_lt_abs_0 | apply Rsqr_lt_abs_1].
Qed.

(** Two values of the density formula with the same variance compare like
    the distances to the mean, reversed. *)
Lemma gauss_lt_iff (p q variance : R) :
  0 < variance ->
  exp (- p ^ 2 / variance) / sqrt (2 * PI * variance)
    < exp (- q ^ 2 / variance) / sqrt (2 * PI * variance)
  <-> Rabs q < Rabs p.
Proof.
  intros Hv. pose proof (norm_const_pos variance Hv) as Hn.
  assert (Hi : 0 < / sqrt (2 * PI * variance)) by now apply Rinv_0_lt_compat.
  assert (Hiv : 0 < / variance) by now apply Rinv_0_lt_compat.
  rewrite <- sqr_lt_abs. unfold Rdiv. split.
  - intros H. apply Rmult_lt_reg_r in H; [|assumption].
    apply exp_lt_inv in H. nra.
  - intros H. apply Rmult_lt_compat_r; [assumption|].
    apply exp_increasing. nra.
Qed.

(** X3: for a positive variance the density does not increase with the
    distance from the mean: if [y] is at least as far from the mean as [x],
    the density at [y] is at most the density at [x]. *)
Theorem gaussian_model_decreasing (x y mean variance : R) :
  0 < variance ->
  Rabs (x - mean) <= Rabs (y - mean) ->
  gaussian_model y mean variance <= gaussian_model x mean variance.
Proof.
  intros Hv H. apply Rnot_lt_le. intros Hlt.
  unfold gaussian_model in Hlt. apply gauss_lt_iff in Hlt; [lra | assumption].
Qed.

Lemma gaussian_model_decreasing_witness :
  0 < 1 /\ Rabs (1 - 0) <= Rabs (2 - 0)
  /\ gaussian_model 2 0 1 <= gaussian_model 1 0 1.
Proof.
  assert (H1 : 0 < 1) by lra.
  assert (H2 : Rabs (1 - 0) <= Rabs (2 - 0)).
  { rewrite !Rabs_pos_eq; lra. }
  split; [exact H1|]. split; [exact H2|].
  apply (gaussian_model_decreasing 1 2 0 1 H1 H2).
Defined.

Lemma gaussian_model_shift (x mean variance c : R) :
  gaussian_model (x + c) (mean + c) variance = gaussian_model x mean variance.
Proof.
  unfold gaussian_model.
  replace (x + c - (mean + c)) with (x - mean) by ring. reflexivity.
Qed.

(** X4: shifting the sample point and both means by the same amount changes
    neither the discriminator nor the value function, in both notebooks. *)
Theorem value_fn_translation (x c tm tv gm gv : R) (rule : string) :
  discriminator (x + c) (make_gaussian_model (tm + c) tv)
                        (make_gaussian_model (gm + c) gv)
  = discriminator x (make_gaussian_model tm tv) (make_gaussian_model gm gv)
  /\ value_fn (x + c) (make_gaussian_model (tm + c) tv)
                      (make_gaussian_model (gm + c) gv) rule
     = value_fn x (make_gaussian_model tm tv) (make_gaussian_model gm gv) rule
  /\ NonSaturatingGAN.value_fn (x + c)
       (NonSaturatingGAN.make_gaussian_model (tm + c) tv)
       (NonSaturatingGAN.make_gaussian_model (gm + c) gv)
     = NonSaturatingGAN.value_fn x
         (NonSaturatingGAN.make_gaussian_model tm tv)
         (NonSaturatingGAN.make_gaussian_model gm gv).
Proof.
  unfold NonSaturatingGAN.value_fn, NonSaturatingGAN.discriminator,
    NonSaturatingGAN.make_gaussian_model, value_fn, discriminator,
    make_gaussian_model.
  change NonSaturatingGAN.gaussian_model with gaussian_model.
  rewrite !gaussian_model_shift. repeat split; reflexivity.
Qed.

(** X5: the density is [1 / sqrt 2] times the normal density with mean
    [mean] and variance [variance / 2], whose exponent divides by twice its
    variance. *)
Theorem gaussian_model_half_variance (x mean variance : R) :
  0 < variance ->
  gaussian_model x mean variance
  = / sqrt 2 * (exp (- (x - mean) ^ 2 / (2 * (variance / 2)))
                / sqrt (2 * PI * (variance / 2))).
Proof.
  intros Hv. pose proof PI_RGT_0 as Hpi.
  assert (Hh : 0 < variance / 2) by lra.
  pose proof (norm_const_pos (variance / 2) Hh) as Hn.
  assert (H2 : 0 < sqrt 2) by (apply sqrt_lt_R0; lra).
  unfold gaussian_model.
  replace (2 * (variance / 2)) with variance by field.
  replace (2 * PI * variance) with (2 * (2 * PI * (variance / 2))) by field.
  rewrite sqrt_mult; [|lra|nra].
  field. split; lra.
Qed.

Lemma gaussian_model_half_variance_witness :
  0 < 1 /\
  gaussian_model 0 0 1
  = / sqrt 2 * (exp (- (0 - 0) ^ 2 / (2 * (1 / 2)))
                / sqrt (2 * PI * (1 / 2))).
Proof.
  split; [lra | apply (gaussian_model_half_variance 0 0 1); lra].
Defined.

(** X6: a density with mean [mean] and positive variance is the density with
    mean 0 and variance 1 in the standardized coordinate, divided by
    [sqrt variance]. *)
Theorem gaussian_model_standardize (u mean variance : R) :
  0 < variance ->
  gaussian_model (mean + sqrt variance * u) mean variance
  = gaussian_model u 0 1 / sqrt variance.
Proof. intros Hv. now apply gaussian_model_rescale. Qed.

Lemma gaussian_model_standardize_witness :
  0 < 4 /\
  gaussian_model (1 + sqrt 4 * 1) 1 4 = gaussian_model 1 0 1 / sqrt 4.
Proof.
  split; [lra | apply (gaussian_model_standardize 1 1 4); lra].
Defined.
(** ** The discriminator *)

Lemma ratio_complement (a b : R) :
  0 < a -> 0 < b -> a / (a + b) + b / (b + a) = 1 /\ 1 - a / (a + b) = b / (a + b).
Proof. intros Ha Hb. split; field; lra. Qed.

(** X7: for positive variances the discriminator and the discriminator with
    the two distributions exchanged add up to one, and one minus the
    discriminator is [P_gen(x) / (P_true(x) + P_gen(x))]. *)
Theorem discriminator_complement (x tm tv gm gv : R) :
  0 < tv -> 0 < gv ->
  let p_true := make_gaussian_model tm tv in
  let p_gen := make_gaussian_model gm gv in
  discriminator x p_true p_gen + discriminator x p_gen p_true = 1
  /\ 1 - discriminator x p_true p_gen = p_gen x / (p_true x + p_gen x).
Proof.
  intros Ht Hg p_true p_gen. unfold discriminator.
  apply ratio_complement; apply gaussian_model_pos; assumption.
Qed.

Lemma discriminator_complement_witness :
  0 < 1 / 2 /\ 0 < 1 /\
  discriminator 0 (make_gaussian_model 3 (1 / 2)) (make_gaussian_model 0 1)
  + discriminator 0 (make_gaussian_model 0 1) (make_gaussian_model 3 (1 / 2))
  = 1.
Proof.
  split; [lra|]. split; [lra|].
  apply (discriminator_complement 0 3 (1 / 2) 0 1); lra.
Defined.

Lemma ratio_gt_half (a b : R) : 0 < a -> 0 < b -> (1 / 2 < a / (a + b) <-> b < a).
Proof.
  intros Ha Hb. split; intros H.
  - apply (Rmult_lt_compat_r (a + b)) in H; [|lra].
    unfold Rdiv at 2 in H. rewrite Rmult_assoc, Rinv_l in H; lra.
  - apply Rmult_lt_reg_r with (a + b); [lra|].
    unfold Rdiv at 2. rewrite Rmult_assoc, Rinv_l; lra.
Qed.

(** X8: when the two distributions have the same positive variance, the
    discriminator is above one half exactly at the points that are nearer to
    the true mean than to the generator mean. *)
Theorem discriminator_nearer_mean (x tm gm variance : R) :
  0 < variance ->
  1 / 2 < discriminator x (make_gaussian_model tm variance)
                          (make_gaussian_model gm variance)
  <-> Rabs (x - tm) < Rabs (x - gm).
Proof.
  intros Hv. unfold discriminator, make_gaussian_model.
  rewrite ratio_gt_half by (apply gaussian_model_pos; assumption).
  unfold gaussian_model. now apply gauss_lt_iff.
Qed.

Lemma discriminator_nearer_mean_witness :
  0 < 1 /\
  (1 / 2 < discriminator 2 (make_gaussian_model 3 1) (make_gaussian_model 0 1)
   <-> Rabs (2 - 3) < Rabs (2 - 0)).
Proof.
  split; [lra | apply (discriminator_nearer_mean 2 3 0 1); lra].
Defined.

(** ** Sign and size of the value curves *)

Lemma ln_neg (u : R) : 0 < u < 1 -> ln u < 0.
Proof. intros [H0 H1]. rewrite <- ln_1. now apply ln_increasing. Qed.

Lemma clamp_in_unit (d : R) : 0 < d < 1 -> 0 < clamp (1 - d) clamp_floor < 1.
Proof.
  intros [H0 H1]. pose proof clamp_floor_pos as Hc.
  assert (Hc1 : clamp_floor < 1).
  { unfold clamp_floor. rewrite <- Rinv_1.
    apply Rinv_lt_contravar; [|apply Rlt_pow_R1]; try lra. lia. }
  unfold clamp. split.
  - apply Rlt_le_trans with clamp_floor; [assumption | apply Rmax_r].
  - apply Rmax_lub_lt; lra.
Qed.

Lemma value_fn_v_neg (x : R) (p_true p_gen : R -> R) :
  0 < p_true x -> 0 < p_gen x -> value_fn x p_true p_gen "v" < 0.
Proof.
  intros Ht Hg. rewrite value_fn_v.
  pose proof (ratio_in_unit _ _ Ht Hg) as Hd. fold (discriminator x p_true p_gen) in Hd.
  pose proof (ln_neg _ Hd) as L1.
  pose proof (ln_neg _ (clamp_in_unit _ Hd)) as L2.
  unfold clamp, clamp_floor in L2. nra.
Qed.

Lemma value_fn_other_rule (x : R) (p_true p_gen : R -> R) (rule : string) :
  rule <> "js"%string ->
  value_fn x p_true p_gen rule = value_fn x p_true p_gen "v".
Proof.
  intros H. apply String.eqb_neq in H. unfold value_fn. rewrite H.
  reflexivity.
Qed.

(** X9: for positive variances the minimax value is at most zero and not
    below [-(P_true(x) + P_gen(x)) * log 2]; no entry of the plotted
    minimax curve is positive. *)
Theorem value_fn_minimax_range (x tm tv gm gv : R) :
  0 < tv -> 0 < gv ->
  let p_true := make_gaussian_model tm tv in
  let p_gen := make_gaussian_model gm gv in
  - (p_true x + p_gen x) * ln 2 <= value_fn x p_true p_gen "v" <= 0
  /\ Forall (fun y => y <= 0) (value_curve (js_redraw_rule gm gv tm tv "v")).
Proof.
  intros Ht Hg p_true p_gen.
  assert (P : forall y, 0 < p_true y /\ 0 < p_gen y)
    by (intros y; split; apply gaussian_model_pos; assumption).
  split; [split|].
  - apply value_fn_v_lower; apply P.
  - left. apply value_fn_v_neg; apply P.
  - cbn [value_curve js_redraw_rule]. apply Forall_forall. intros y Hy.
    apply in_map_iff in Hy. destruct Hy as [z [<- _]].
    left. apply value_fn_v_neg; apply P.
Qed.

Lemma value_fn_minimax_range_witness :
  0 < 1 / 2 /\ 0 < 1 /\
  Forall (fun y => y <= 0) (value_curve (js_redraw_rule 0 1 3 (1 / 2) "v")).
Proof.
  split; [lra|]. split; [lra|].
  apply (value_fn_minimax_range 0 3 (1 / 2) 0 1); lra.
Defined.

Lemma value_fn_js_nonneg (x : R) (p_true p_gen : R -> R) :
  0 < p_true x -> 0 < p_gen x ->
  0 <= value_fn x p_true p_gen "js" < (p_true x + p_gen x) * ln 2.
Proof.
  intros Ht Hg. rewrite value_fn_js, ln_half.
  pose proof (value_fn_v_lower x p_true p_gen Ht Hg).
  pose proof (value_fn_v_neg x p_true p_gen Ht Hg).
  split; lra.
Qed.



(** ** Where the Jensen-Shannon curve vanishes *)

Lemma ln_lower_strict (u : R) : 0 < u -> u <> 1 -> 1 - / u < ln u.
Proof.
  intros Hu H1. pose proof (ln_neq_0 u H1 Hu) as Hl.
  assert (Hn : - ln u <> 0) by lra.
  pose proof (exp_ineq1 (- ln u) Hn) as H.
  rewrite exp_Ropp, exp_ln in H by assumption. lra.
Qed.

Lemma gibbs_strict (a b : R) :
  0 < a -> 0 < b -> a <> b ->
  - (a + b) * ln 2 < a * ln (a / (a + b)) + b * ln (b / (a + b)).
Proof.
  intros Ha Hb Hab.
  assert (Hda : 0 < a / (a + b)) by (apply Rdiv_lt_0_compat; lra).
  assert (Hdb : 0 < b / (a + b)) by (apply Rdiv_lt_0_compat; lra).
  assert (Hu : 2 * (a / (a + b)) <> 1).
  { intros E. apply Hab.
    assert (E' : 2 * (a / (a + b)) * (a + b) = 2 * a) by (field; lra).
    rewrite E in E'. lra. }
  pose proof (ln_lower_strict (2 * (a / (a + b))) ltac:(lra) Hu) as Ga.
  pose proof (ln_lower (2 * (b / (a + b))) ltac:(lra)) as Gb.
  rewrite ln_mult in Ga, Gb by lra.
  replace (/ (2 * (a / (a + b)))) with ((a + b) / (2 * a)) in Ga
    by (field; lra).
  replace (/ (2 * (b / (a + b)))) with ((a + b) / (2 * b)) in Gb
    by (field; lra).
  apply (Rmult_lt_compat_l a) in Ga; [|lra].
  apply (Rmult_le_compat_l b) in Gb; [|lra].
  replace (a * (1 - (a + b) / (2 * a))) with (a - (a + b) / 2) in Ga
    by (field; lra).
  replace (b * (1 - (a + b) / (2 * b))) with (b - (a + b) / 2) in Gb
    by (field; lra).
  lra.
Qed.

Lemma value_fn_js_zero_iff (x : R) (p_true p_gen : R -> R) :
  0 < p_true x -> 0 < p_gen x ->
  (value_fn x p_true p_gen "js" = 0 <-> p_true x = p_gen x).
Proof.
  intros Ht Hg. rewrite value_fn_js, ln_half, value_fn_v. unfold discriminator.
  set (a := p_true x) in *. set (b := p_gen x) in *.
  assert (E : 1 - a / (a + b) = b / (a + b)) by (field; lra).
  assert (Hdb : 0 < b / (a + b)) by (apply Rdiv_lt_0_compat; lra).
  pose proof (ln_le_mono (b / (a + b)) (Rmax (1 - a / (a + b)) (/ 10 ^ 50))
                Hdb) as M.
  rewrite E in *. specialize (M (Rmax_l _ _)).
  apply (Rmult_le_compat_l b) in M; [|lra].
  split.
  - intros H0. destruct (Req_dec a b) as [Eab|Nab]; [assumption|].
    pose proof (gibbs_strict a b Ht Hg Nab). lra.
  - intros Eab. rewrite <- Eab in *.
    rewrite (ratio_same a Ht).
    pose proof clamp_half as Hc. unfold clamp, clamp_floor in Hc.
    replace (1 - 1 / 2) with (1 / 2) in Hc by lra.
    rewrite Hc, ln_half. ring.
Qed.

(** X11: for positive variances the Jensen-Shannon value at [x] is zero
    exactly when the two densities are equal at [x]; with equal parameters it
    is zero everywhere. *)
Theorem value_fn_js_zero (x tm tv gm gv : R) :
  0 < tv -> 0 < gv ->
  let p_true := make_gaussian_model tm tv in
  let p_gen := make_gaussian_model gm gv in
  (value_fn x p_true p_gen "js" = 0 <-> p_true x = p_gen x)
  /\ value_fn x p_true p_true "js" = 0.
Proof.
  intros Ht Hg p_true p_gen.
  assert (P : 0 < p_true x /\ 0 < p_gen x)
    by (split; apply gaussian_model_pos; assumption).
  split.
  - apply value_fn_js_zero_iff; apply P.
  - apply value_fn_js_zero_iff; [apply P | apply P | reflexivity].
Qed.

Lemma value_fn_js_zero_witness :
  0 < 1 /\
  value_fn 2 (make_gaussian_model 0 1) (make_gaussian_model 0 1) "js" = 0.
Proof.
  split; [lra | apply (value_fn_js_zero 2 0 1 0 1); lra].
Defined.

(** ** The two definitions of [value_fn] *)

Lemma clamp_inactive_iff (a b : R) :
  0 < a -> 0 < b ->
  (clamp (1 - a / (a + b)) clamp_floor = 1 - a / (a + b)
   <-> clamp_floor * (a + b) <= b).
Proof.
  intros Ha Hb.
  assert (E : 1 - a / (a + b) = b / (a + b)) by (field; lra).
  assert (Hi : / (a + b) * (a + b) = 1) by (apply Rinv_l; lra).
  rewrite E. unfold clamp, Rdiv. split.
  - intros H. pose proof (Rmax_r (b * / (a + b)) clamp_floor) as Hm.
    rewrite H in Hm.
    apply (Rmult_le_compat_r (a + b)) in Hm; [|lra].
    rewrite Rmult_assoc, Hi in Hm. lra.
  - intros H. apply Rmax_left.
    apply Rmult_le_reg_r with (a + b); [lra|].
    rewrite Rmult_assoc, Hi. lra.
Qed.

(** X13: for positive densities the second definition of [value_fn], with
    rule ['v'], is never below the first, unclamped definition. *)
Theorem value_fn_first_second (x : R) (p_true p_gen : R -> R) :
  0 < p_true x -> 0 < p_gen x ->
  value_fn_first x p_true p_gen <= value_fn x p_true p_gen "v".
Proof.
  intros Ht Hg. rewrite value_fn_v. unfold value_fn_first. cbv zeta.
  destruct (ratio_complement _ _ Ht Hg) as [_ E].
  fold (discriminator x p_true p_gen) in E.
  assert (Hdb : 0 < 1 - discriminator x p_true p_gen).
  { rewrite E. apply Rdiv_lt_0_compat; lra. }
  pose proof (ln_le_mono _ (Rmax (1 - discriminator x p_true p_gen)
                                 (/ 10 ^ 50)) Hdb (Rmax_l _ _)) as M.
  apply (Rmult_le_compat_l (p_gen x)) in M; lra.
Qed.

Lemma value_fn_first_second_witness :
  0 < make_gaussian_model 0 1 0 /\ 0 < make_gaussian_model 0 1 0 /\
  value_fn_first 0 (make_gaussian_model 0 1) (make_gaussian_model 0 1)
  <= value_fn 0 (make_gaussian_model 0 1) (make_gaussian_model 0 1) "v".
Proof.
  assert (H : 0 < make_gaussian_model 0 1 0)
    by (apply gaussian_model_pos; lra).
  split; [exact H|]. split; [exact H|].
  apply (value_fn_first_second 0 _ _ H H).
Defined.




(** X15: multiplying both densities by the same non-zero factor leaves the
    discriminator unchanged and multiplies [value_fn] by that factor. *)
Theorem value_fn_homogeneous (x c : R) (p_true p_gen : R -> R) (rule : string) :
  c <> 0 -> p_true x + p_gen x <> 0 ->
  discriminator x (fun y => c * p_true y) (fun y => c * p_gen y)
  = discriminator x p_true p_gen
  /\ value_fn x (fun y => c * p_true y) (fun y => c * p_gen y) rule
     = c * value_fn x p_true p_gen rule
  /\ NonSaturatingGAN.value_fn x (fun y => c * p_true y) (fun y => c * p_gen y)
     = c * NonSaturatingGAN.value_fn x p_true p_gen.
Proof.
  intros Hc Hs.
  assert (D : discriminator x (fun y => c * p_true y) (fun y => c * p_gen y)
              = discriminator x p_true p_gen).
  { unfold discriminator. field. split; [assumption|].
    replace (c * p_true x + c * p_gen x) with (c * (p_true x + p_gen x))
      by ring.
    apply Rmult_integral_contrapositive_currified; assumption. }
  split; [exact D|]. split.
  - unfold value_fn. cbv zeta. rewrite D. ring.
  - unfold NonSaturatingGAN.value_fn. cbv zeta.
    change NonSaturatingGAN.discriminator with discriminator.
    rewrite D. ring.
Qed.

Lemma value_fn_homogeneous_witness :
  2 <> 0 /\ 1 + 1 <> 0 /\
  discriminator 0 (fun _ => 2 * 1) (fun _ => 2 * 1)
  = discriminator 0 (fun _ => 1) (fun _ => 1).
Proof.
  assert (H2 : 2 <> 0) by lra. assert (H1 : 1 + 1 <> 0) by lra.
  split; [exact H2|]. split; [exact H1|].
  apply (value_fn_homogeneous 0 2 (fun _ => 1) (fun _ => 1) "v" H2 H1).
Defined.

(** ** The non-saturating notebook *)

Lemma nonsaturating_neg (x : R) (p_true p_gen : R -> R) :
  0 < p_true x -> 0 < p_gen x -> NonSaturatingGAN.value_fn x p_true p_gen < 0.
Proof.
  intros Ht Hg. unfold NonSaturatingGAN.value_fn, NonSaturatingGAN.discriminator.
  cbv zeta. pose proof (ln_neg _ (ratio_in_unit _ _ Ht Hg)). nra.
Qed.

(** X16: for positive variances the non-saturating value is at most zero,
    and no entry of the curve [nonsaturating_redraw_rule] plots is
    positive. *)
Theorem nonsaturating_value_negative (x tm tv gm gv : R) :
  0 < tv -> 0 < gv ->
  NonSaturatingGAN.value_fn x (NonSaturatingGAN.make_gaussian_model tm tv)
                              (NonSaturatingGAN.make_gaussian_model gm gv) <= 0
  /\ Forall (fun y => y <= 0)
       (NonSaturatingRedraw.value_curve
          (NonSaturatingRedraw.nonsaturating_redraw_rule gm gv tm tv)).
Proof.
  intros Ht Hg.
  assert (P : forall y, 0 < NonSaturatingGAN.make_gaussian_model tm tv y
                        /\ 0 < NonSaturatingGAN.make_gaussian_model gm gv y)
    by (intros y; split; apply gaussian_model_pos; assumption).
  split; [left; apply nonsaturating_neg; apply P|].
  cbn [NonSaturatingRedraw.value_curve
         NonSaturatingRedraw.nonsaturating_redraw_rule].
  apply Forall_forall. intros y Hy.
  apply in_map_iff in Hy. destruct Hy as [z [<- _]].
  left. apply nonsaturating_neg; apply P.
Qed.

Lemma nonsaturating_value_negative_witness :
  0 < 1 / 2 /\ 0 < 1 /\
  NonSaturatingGAN.value_fn 0 (NonSaturatingGAN.make_gaussian_model 3 (1 / 2))
                              (NonSaturatingGAN.make_gaussian_model 0 1) <= 0.
Proof.
  split; [lra|]. split; [lra|].
  apply (nonsaturating_value_negative 0 3 (1 / 2) 0 1); lra.
Defined.

(** X17: with equal parameters the non-saturating value is
    [- log 2] times the density, half of the minimax value. *)
Theorem nonsaturating_equal_params (x mean variance : R) :
  0 < variance ->
  let p := make_gaussian_model mean variance in
  NonSaturatingGAN.value_fn x p p = - ln 2 * p x
  /\ value_fn x p p "v" = 2 * NonSaturatingGAN.value_fn x p p.
Proof.
  intros Hv p.
  assert (Hp : 0 < p x) by now apply gaussian_model_pos.
  assert (E : NonSaturatingGAN.value_fn x p p = - ln 2 * p x).
  { unfold NonSaturatingGAN.value_fn, NonSaturatingGAN.discriminator.
    cbv zeta. rewrite (ratio_same _ Hp), ln_half. ring. }
  split; [exact E|]. rewrite E, value_fn_v.
  rewrite (discriminator_same x p Hp).
  pose proof clamp_half as Hc. unfold clamp, clamp_floor in Hc.
  rewrite Hc, ln_half. ring.
Qed.

Lemma nonsaturating_equal_params_witness :
  0 < 1 /\
  NonSaturatingGAN.value_fn 0 (make_gaussian_model 0 1) (make_gaussian_model 0 1)
  = - ln 2 * make_gaussian_model 0 1 0.
Proof.
  split; [lra | apply (nonsaturating_equal_params 0 0 1); lra].
Defined.

(** ** The curves and the axis limits of [js_redraw_rule] *)

Lemma inv_sqrt_le (v lo : R) :
  0 < lo -> lo * lo <= 2 * PI * v -> / sqrt (2 * PI * v) <= / lo.
Proof.
  intros Hlo H. apply Rinv_le_contravar; [assumption|].
  rewrite <- (sqrt_square lo) by lra. now apply sqrt_le_1_alt.
Qed.

Lemma inv_sqrt_ge (v hi : R) :
  0 < v -> 0 < hi -> 2 * PI * v <= hi * hi -> / hi <= / sqrt (2 * PI * v).
Proof.
  intros Hv Hhi H. apply Rinv_le_contravar; [now apply norm_const_pos|].
  rewrite <- (sqrt_square hi) by lra. now apply sqrt_le_1_alt.
Qed.

(** X18: with the target parameters [(3, 0.5)] of the notebook and a
    generator variance of at least [0.1], the lower end of the slider, every
    entry of the value curve lies inside the limits [(-3.05, 3.05)] of the
    right axis, for every generator mean and every [rule]. *)
Theorem value_curve_inside_axis (gm gv : R) (rule : string) :
  1 / 10 <= gv ->
  Forall (inside ax2_ylim) (value_curve (js_redraw_rule gm gv 3 (1 / 2) rule)).
Proof.
  intros Hgv. cbn [value_curve js_redraw_rule].
  apply Forall_forall. intros y Hy.
  apply in_map_iff in Hy. destruct Hy as [x [<- _]].
  set (p_true := make_gaussian_model 3 (1 / 2)).
  set (p_gen := make_gaussian_model gm gv).
  pose proof PI_bounds as [P1 P2]. pose proof ln_2_bounds as [L1 L2].
  assert (Ht : 0 < p_true x) by (apply gaussian_model_pos; lra).
  assert (Hg : 0 < p_gen x) by (apply gaussian_model_pos; lra).
  assert (Bt : p_true x <= / (177 / 100)).
  { eapply Rle_trans; [apply gaussian_model_le_peak; lra|].
    apply inv_sqrt_le; lra. }
  assert (Bg : p_gen x <= / (79 / 100)).
  { eapply Rle_trans; [apply gaussian_model_le_peak; lra|].
    apply inv_sqrt_le; [lra|]. nra. }
  assert (B : (p_true x + p_gen x) * ln 2 < 305 / 100).
  { apply Rle_lt_trans with ((/ (177 / 100) + / (79 / 100)) * ln 2).
    - apply Rmult_le_compat_r; lra.
    - replace (/ (177 / 100)) with (100 / 177) by field.
      replace (/ (79 / 100)) with (100 / 79) by field. lra. }
  unfold inside, ax2_ylim. cbn [fst snd].
  destruct (string_dec rule "js") as [->|Hr].
  - pose proof (value_fn_js_nonneg x p_true p_gen Ht Hg). lra.
  - rewrite (value_fn_other_rule x p_true p_gen rule Hr).
    pose proof (value_fn_v_lower x p_true p_gen Ht Hg).
    pose proof (value_fn_v_neg x p_true p_gen Ht Hg). lra.
Qed.

Lemma value_curve_inside_axis_witness :
  1 / 10 <= 1 /\
  Forall (inside ax2_ylim) (value_curve (js_redraw_rule 0 1 3 (1 / 2) "v")).
Proof.
  split; [lra | apply (value_curve_inside_axis 0 1 "v"); lra].
Defined.

(** X19: with the target parameters [(3, 0.5)] and a generator variance of at
    least [0.15], the two density curves and the discriminator curve lie
    inside the limits [(-0.05, 1.05)] of the left axis. *)
Theorem left_curves_inside_axis (gm gv : R) (rule : string) :
  3 / 20 <= gv ->
  let c := js_redraw_rule gm gv 3 (1 / 2) rule in
  Forall (inside ax_ylim) (gen_density c)
  /\ Forall (inside ax_ylim) (true_density c)
  /\ Forall (inside ax_ylim) (discriminator_curve c).
Proof.
  intros Hgv c. pose proof PI_bounds as [P1 P2].
  unfold c. cbn [gen_density true_density discriminator_curve js_redraw_rule].
  unfold inside, ax_ylim. cbn [fst snd].
  repeat split; apply Forall_forall; intros y Hy;
    apply in_map_iff in Hy; destruct Hy as [x [<- _]]; split.
  - pose proof (gaussian_model_pos gm gv ltac:(lra) x).
    unfold make_gaussian_model. lra.
  - eapply Rle_lt_trans; [apply gaussian_model_le_peak; lra|].
    apply Rle_lt_trans with (/ (97 / 100)).
    + apply inv_sqrt_le; [lra|]. nra.
    + replace (/ (97 / 100)) with (100 / 97) by field. lra.
  - pose proof (gaussian_model_pos 3 (1 / 2) ltac:(lra) x).
    unfold make_gaussian_model. lra.
  - eapply Rle_lt_trans; [apply gaussian_model_le_peak; lra|].
    apply Rle_lt_trans with (/ (177 / 100)).
    + apply inv_sqrt_le; lra.
    + replace (/ (177 / 100)) with (100 / 177) by field. lra.
  - pose proof (discriminator_in_unit x 3 (1 / 2) gm gv ltac:(lra) ltac:(lra)).
    lra.
  - pose proof (discriminator_in_unit x 3 (1 / 2) gm gv ltac:(lra) ltac:(lra)).
    lra.
Qed.

Lemma left_curves_inside_axis_witness :
  3 / 20 <= 1 /\
  Forall (inside ax_ylim) (gen_density (js_redraw_rule 0 1 3 (1 / 2) "v")).
Proof.
  split; [lra | apply (left_curves_inside_axis 0 1 "v"); lra].
Defined.

(** X20: when the generator mean is a grid point and the generator variance
    is at most [0.14], which the slider allows, the generator density curve
    has an entry above the upper limit [1.05] of the left axis. *)
Theorem gen_density_leaves_axis (gm gv tm tv : R) (rule : string) :
  0 < gv <= 7 / 50 -> In gm x_range ->
  Exists (fun y => snd ax_ylim < y)
         (gen_density (js_redraw_rule gm gv tm tv rule)).
Proof.
  intros [Hgv Hle] Hin. pose proof PI_bounds as [P1 P2].
  cbn [gen_density js_redraw_rule]. apply Exists_exists.
  exists (make_gaussian_model gm gv gm). split.
  - now apply in_map.
  - unfold make_gaussian_model, ax_ylim. cbn [snd].
    rewrite gaussian_model_at_mean.
    apply Rlt_le_trans with (/ (938 / 1000)).
    + replace (/ (938 / 1000)) with (1000 / 938) by field. lra.
    + apply inv_sqrt_ge; [assumption | lra | nra].
Qed.

Lemma zero_in_x_range : In 0 x_range.
Proof.
  unfold x_range. apply in_map_iff. exists 30%nat. split.
  - cbn [INR]. lra.
  - apply in_seq. lia.
Qed.

Lemma gen_density_leaves_axis_witness :
  0 < 1 / 10 <= 7 / 50 /\ In 0 x_range /\
  Exists (fun y => snd ax_ylim < y)
         (gen_density (js_redraw_rule 0 (1 / 10) 3 (1 / 2) "v")).
Proof.
  assert (H : 0 < 1 / 10 <= 7 / 50) by lra.
  split; [exact H|]. split; [exact zero_in_x_range|].
  apply (gen_density_leaves_axis 0 (1 / 10) 3 (1 / 2) "v" H zero_in_x_range).
Defined.

(** ** The clamp at the default parameters *)

Lemma exp_18 : exp 18 < 10 ^ 9.
Proof.
  assert (H : IZR 1 / IZR (10 ^ 9) < exp (- (IZR 18 / IZR 1))).
  { apply exp_neg_gt_of_lo; try lia. vm_compute. reflexivity. }
  replace (IZR 18 / IZR 1) with 18 in H by field.
  replace (IZR (10 ^ 9)) with (10 ^ 9) in H by (rewrite pow_IZR; reflexivity).
  assert (Hinv : exp (Ropp 18) * exp 18 = 1)
    by (rewrite <- exp_plus, Rplus_opp_l; apply exp_0).
  pose proof (exp_pos 18) as Hp.
  assert (H9 : 0 < 10 ^ 9) by (apply pow_lt; lra).
  apply (Rmult_lt_compat_r (10 ^ 9 * exp 18)) in H; [|nra].
  replace (IZR 1 / 10 ^ 9 * (10 ^ 9 * exp 18)) with (exp 18) in H
    by (field; lra).
  replace (exp (Ropp 18) * (10 ^ 9 * exp 18)) with (10 ^ 9 * (exp (Ropp 18) * exp 18))
    in H by ring.
  rewrite Hinv in H. lra.
Qed.

Lemma true_exp_gen_exp (x : R) : true_exp x <= 10 ^ 9 * gen_exp x.
Proof.
  unfold true_exp, gen_exp.
  replace (- (x - 3) ^ 2 / (1 / 2))
    with (- (x - 0) ^ 2 / 1 + (18 - (x - 6) ^ 2)) by field.
  rewrite exp_plus. pose proof (exp_pos (- (x - 0) ^ 2 / 1)) as Hp.
  assert (He : exp (18 - (x - 6) ^ 2) <= exp 18).
  { pose proof (pow2_ge_0 (x - 6)) as Hsq.
    destruct (Req_dec ((x - 6) ^ 2) 0) as [E|N].
    - rewrite E, Rminus_0_r. lra.
    - left. apply exp_increasing. lra. }
  pose proof exp_18. nra.
Qed.

(** X21: at the default parameters of [js_redraw_rule], target [(3, 0.5)]
    and generator [(0, 1)], the clamp never changes [1 - D(x)], for any real
    [x]; the second definition of [value_fn] with rule ['v'] then agrees
    with the first one everywhere. *)
Theorem clamp_inactive_defaults (x : R) :
  let p_true := make_gaussian_model 3 (1 / 2) in
  let p_gen := make_gaussian_model 0 1 in
  clamp (1 - discriminator x p_true p_gen) clamp_floor
  = 1 - discriminator x p_true p_gen
  /\ value_fn x p_true p_gen "v" = value_fn_first x p_true p_gen.
Proof.
  intros p_true p_gen.
  assert (Ht : 0 < p_true x) by (apply gaussian_model_pos; lra).
  assert (Hg : 0 < p_gen x) by (apply gaussian_model_pos; lra).
  assert (C : clamp_floor * (p_true x + p_gen x) <= p_gen x).
  { assert (B : p_true x <= 10 ^ 10 * p_gen x).
    { unfold p_true, p_gen. rewrite true_model_exp, gen_model_exp.
      pose proof (true_exp_gen_exp x) as Hx.
      pose proof sqrt_2PI_bounds as [G1 G2].
      pose proof sqrt_PI_bounds as [T1 T2].
      set (sg := sqrt (2 * PI * 1)) in *.
      set (st := sqrt (2 * PI * (1 / 2))) in *.
      assert (Hgi : / sg * sg = 1) by (apply Rinv_l; lra).
      assert (Hti : / st * st = 1) by (apply Rinv_l; lra).
      assert (0 < / sg) by (apply Rinv_0_lt_compat; lra).
      assert (0 < / st) by (apply Rinv_0_lt_compat; lra).
      assert (1 / 3 < / sg) by nra.
      assert (/ st < 1) by nra.
      assert (0 < gen_exp x) by (unfold gen_exp; apply exp_pos).
      assert (0 < true_exp x) by (unfold true_exp; apply exp_pos).
      apply Rle_trans with (1 * (10 ^ 9 * gen_exp x)).
      - apply Rmult_le_compat; lra.
      - replace (10 ^ 10) with (10 * 10 ^ 9) by ring.
        assert (0 < 10 ^ 9) by (apply pow_lt; lra).
        assert (0 < 10 ^ 9 * gen_exp x) by nra.
        nra. }
    pose proof clamp_floor_pos as Hc0.
    assert (Hc : clamp_floor * (10 ^ 10 + 1) <= 1).
    { unfold clamp_floor.
      assert (10 ^ 10 + 1 <= 10 ^ 50).
      { apply Rle_trans with (10 ^ 11); [lra|]. apply Rle_pow; [lra|lia]. }
      assert (0 < 10 ^ 50) by (apply pow_lt; lra).
      apply Rmult_le_reg_l with (10 ^ 50); [assumption|].
      rewrite <- Rmult_assoc, Rinv_r by lra. lra. }
    apply Rle_trans with (clamp_floor * ((10 ^ 10 + 1) * p_gen x)).
    - apply Rmult_le_compat_l; lra.
    - rewrite <- Rmult_assoc. nra. }
  split.
  - now apply (clamp_inactive_iff _ _ Ht Hg).
  - apply (proj2 (clamp_inactive_iff _ _ Ht Hg)) in C.
    fold (discriminator x p_true p_gen) in C.
    rewrite value_fn_v. unfold value_fn_first. cbv zeta.
    unfold clamp, clamp_floor in C. now rewrite C.
Qed.
